(** * VoiceControl: the voice scroll controller of [script.js]

    A shallow embedding of the class [VoiceScrollController] and of the
    browser objects it talks to, followed by the properties of its command
    matcher, debounce gate and recognition lifecycle.

    The source holds two variants of the class.  [VariantA] is the class of
    lines 1-360 (with the [stop] command, the upper scroll bound and the
    [switch] over error kinds); [VariantB] is the class of lines 361-664.
    A function that differs between the two takes the variant as its first
    argument. *)

From Stdlib Require Import ZArith QArith Qminmax Ascii String List Lia.
From stdpp Require Import base option list gmap strings.

Local Open Scope Z_scope.

Inductive Variant := VariantA | VariantB.

(** * Characters and strings

    A string is a sequence of code units below 256, so a character is an
    [ascii] read as its Latin-1 code point.  The built-in string functions
    the class calls are written out on these strings. *)

Module Char.

Definition code (c : ascii) : N := N_of_ascii c.

Definition between (lo hi : N) (c : ascii) : bool :=
  ((lo <=? code c) && (code c <=? hi))%N.

(** WhiteSpace and LineTerminator of ECMAScript, as used by [trim] and by
    the class [\s]: TAB, LF, VT, FF, CR, SP and NBSP. *)
Definition isWhiteSpace (c : ascii) : bool :=
  between 9 13 c || (code c =? 32)%N || (code c =? 160)%N.

(** The class [\w], which decides the assertion [\b]. *)
Definition isWordChar (c : ascii) : bool :=
  between 48 57 c || between 65 90 c || (code c =? 95)%N || between 97 122 c.

Definition shift_up (c : ascii) : ascii := ascii_of_N (code c + 32).
Definition shift_down (c : ascii) : ascii := ascii_of_N (code c - 32).

(** [toLowerCase] on one character: A-Z and the accented capitals
    U+00C0-U+00DE (without the sign U+00D7) move 32 places up. *)
Definition toLowerCase (c : ascii) : ascii :=
  if between 65 90 c || between 192 214 c || between 216 222 c
  then shift_up c else c.

(** Canonicalize of a regular expression with the flag [i] and without
    the flag [u]: the upper-case character when it is a single code unit
    of the same range. *)
Definition canonicalize (c : ascii) : ascii :=
  if between 97 122 c || between 224 246 c || between 248 254 c
  then shift_down c else c.

End Char.

Module Str.

Fixpoint map (f : ascii -> ascii) (s : string) : string :=
  match s with
  | EmptyString => EmptyString
  | String c s' => String (f c) (map f s')
  end.

Definition isEmpty (s : string) : bool :=
  match s with EmptyString => true | String _ _ => false end.

(** [String.prototype.toLowerCase] *)
Definition toLowerCase (s : string) : string := map Char.toLowerCase s.

Fixpoint trimStart (s : string) : string :=
  match s with
  | EmptyString => EmptyString
  | String c s' => if Char.isWhiteSpace c then trimStart s' else s
  end.

Fixpoint trimEnd (s : string) : string :=
  match s with
  | EmptyString => EmptyString
  | String c s' =>
      let r := trimEnd s' in
      if Char.isWhiteSpace c && isEmpty r then EmptyString else String c r
  end.

(** [String.prototype.trim] *)
Definition trim (s : string) : string := trimEnd (trimStart s).

(** [s.split(/\s+/)]: the substrings between the maximal runs of white
    space.  [in_run] tells that the character before was white space.  A
    run at the start or at the end of [s] leaves an empty substring
    there, and the empty string splits into one empty substring. *)
Fixpoint split_from (in_run : bool) (s : string) : list string :=
  match s with
  | EmptyString => [EmptyString]
  | String c s' =>
      if Char.isWhiteSpace c then
        if in_run then split_from true s'
        else EmptyString :: split_from true s'
      else
        match split_from false s' with
        | tok :: rest => String c tok :: rest
        | [] => [String c EmptyString]
        end
  end.

Definition splitWhitespace (s : string) : list string := split_from false s.

(** The words of a string: its maximal runs of characters that are not
    white space.  This is the reading of "split on whitespace runs and
    drop empty tokens" that does not go through [split]. *)
Fixpoint words_from (s : string) : list string :=
  match s with
  | EmptyString => []
  | String c s' =>
      if Char.isWhiteSpace c then words_from s'
      else
        match s' with
        | EmptyString => [String c EmptyString]
        | String c' _ =>
            if Char.isWhiteSpace c' then String c EmptyString :: words_from s'
            else
              match words_from s' with
              | tok :: rest => String c tok :: rest
              | [] => [String c EmptyString]
              end
        end
  end.

Definition hasWhiteSpace (s : string) : bool :=
  existsb Char.isWhiteSpace (list_ascii_of_string s).

End Str.

(** * Regular expressions of the shape [\b<literal>\b] with the flag [i]

    [findMatchingCommand] builds one such expression per command name and
    calls [test] on it.  The literal holds no metacharacter. *)

Module RegExp.

Definition head (s : string) : option ascii :=
  match s with EmptyString => None | String c _ => Some c end.

(** IsWordChar of a position: false before the first and after the last
    character. *)
Definition isWordAt (c : option ascii) : bool :=
  match c with Some c => Char.isWordChar c | None => false end.

(** The assertion [\b] between the characters [before] and [after]. *)
Definition boundary (before after : option ascii) : bool :=
  xorb (isWordAt before) (isWordAt after).

Definition sameChar (a b : ascii) : bool :=
  bool_decide (Char.canonicalize a = Char.canonicalize b).

(** Match the literal at the head of [s]; the result is the last
    character consumed (or [prev] when the literal is empty) and the rest
    of [s]. *)
Fixpoint matchLiteral (lit : string) (prev : option ascii) (s : string)
  : option (option ascii * string) :=
  match lit with
  | EmptyString => Some (prev, s)
  | String l lit' =>
      match s with
      | EmptyString => None
      | String c s' =>
          if sameChar l c then matchLiteral lit' (Some c) s' else None
      end
  end.

(** [\b<lit>\b] matched at the position between [prev] and [s]. *)
Definition matchAt (lit : string) (prev : option ascii) (s : string) : bool :=
  boundary prev (head s) &&
  match matchLiteral lit prev s with
  | Some (last, rest) => boundary last (head rest)
  | None => false
  end.

(** The search of [test]: every start position from left to right. *)
Fixpoint search (lit : string) (prev : option ascii) (s : string) : bool :=
  matchAt lit prev s ||
  match s with
  | EmptyString => false
  | String c s' => search lit (Some c) s'
  end.

(** [new RegExp('\\b' + lit + '\\b', 'i').test(s)] *)
Definition test (lit s : string) : bool := search lit None s.

End RegExp.

(** * The controller and the browser *)

(** The object passed to the constructor: a key the caller left out is
    [None].  The values are read at the types the class uses them at. *)
Record ConfigArg := {
  arg_idleDuration : option Z;
  arg_debounceDelay : option Z;
  arg_scrollAmount : option Q;
  arg_lang : option string
}.

Record Config := {
  idleDuration : Z;
  debounceDelay : Z;
  scrollAmount : Q;
  lang : string
}.

(** [this.state] *)
Record SessionState := {
  isListening : bool;
  lastCommand : string;
  lastCommandTime : Z
}.

(** [this]: the fields the class assigns.  [recognition] is the handle of
    the recognition object or [None] for [null]; [idleTimeout] is the
    identifier returned by [setTimeout] or [None] for [null].  The fields
    [elements], [noiseWords] and [commands] are assigned once by the
    constructor; the two tables are the constants [noiseWords] and
    [commands] below, and the styling of the DOM elements is left out. *)
Record Controller := {
  config : Config;
  state : SessionState;
  recognition : option nat;
  idleTimeout : option nat
}.

Inductive Exn := TypeError | DOMException.

(** The function a pending timer will call. *)
Inductive TimerCallback :=
| IdleCallback        (* the arrow function of resetIdleTimeout *)
| FeedbackCallback.   (* the arrow function of showCommandFeedback *)

Inductive Message :=
| MsgStarted
| MsgStartFailed (e : Exn)
| MsgHeard (transcript : string) (confidence : Q)
| MsgDebounced (command : string)
| MsgUnknownCommand (word : string)
| MsgExecuted (command : string)
| MsgExecuteFailed (command : string) (e : Exn)
| MsgRecognitionError (errorMessage : string)
| MsgNoSpeech
| MsgNetwork
| MsgOtherError (errorMessage : string)
| MsgRestartFailed (e : Exn)
| MsgStopped
| MsgInactivity.

Inductive Dialog := DlgAccessDenied | DlgNoMicrophone | DlgCommands.

(** What the class does to the browser, in the order it does it. *)
Inductive Effect :=
| ConsoleLog (m : Message)
| ConsoleError (m : Message)
| Alert (d : Dialog)
| Confirm (d : Dialog) (answer : bool)
| ScrollTo (top : Q)
| NewRecognition (handle : nat) (language : string)
| RecognitionStart (handle : nat)
| RecognitionStop (handle : nat)
| SetTimeout (id : nat) (callback : TimerCallback) (delay : Z)
| ClearTimeout (id : nat).

(** [window] and [document] as the class reads them. *)
Record Page := {
  scrollY : Q;
  innerHeight : Q;
  scrollHeight : Q     (* document.body.scrollHeight *)
}.

(** The part of the browser the class cannot change.  The four functions
    give the browser's answer at each tick: the geometry of the page, the
    value of [Date.now()], whether a call that may fail ([scrollTo],
    [start]) throws, and the button the user presses in
    [window.confirm]. *)
Record Host := {
  page : nat -> Page;
  supported : bool;    (* a SpeechRecognition constructor exists *)
  clock : nat -> Z;
  throws : nat -> bool;
  answers : nat -> bool
}.

(** The part of the browser that moves.  The tick goes up with every
    question asked to the host and whenever the browser lets time pass
    between two events. *)
Record Browser := {
  tick : nat;
  timers : gmap nat TimerCallback;
  nextTimer : nat;
  nextHandle : nat;
  output : list Effect
}.

Record World := {
  this : Controller;
  host : Host;
  browser : Browser
}.

(** ** Field updates *)

Definition set_state (s : SessionState) (c : Controller) : Controller :=
  {| config := config c; state := s;
     recognition := recognition c; idleTimeout := idleTimeout c |}.

Definition set_recognition (r : option nat) (c : Controller) : Controller :=
  {| config := config c; state := state c;
     recognition := r; idleTimeout := idleTimeout c |}.

Definition set_idleTimeout (t : option nat) (c : Controller) : Controller :=
  {| config := config c; state := state c;
     recognition := recognition c; idleTimeout := t |}.

Definition set_isListening (b : bool) (s : SessionState) : SessionState :=
  {| isListening := b; lastCommand := lastCommand s;
     lastCommandTime := lastCommandTime s |}.

Definition set_lastCommand (x : string) (s : SessionState) : SessionState :=
  {| isListening := isListening s; lastCommand := x;
     lastCommandTime := lastCommandTime s |}.

Definition set_lastCommandTime (t : Z) (s : SessionState) : SessionState :=
  {| isListening := isListening s; lastCommand := lastCommand s;
     lastCommandTime := t |}.

Definition with_this (f : Controller -> Controller) (w : World) : World :=
  {| this := f (this w); host := host w; browser := browser w |}.

Definition with_browser (f : Browser -> Browser) (w : World) : World :=
  {| this := this w; host := host w; browser := f (browser w) |}.

(** [window] and [document] as they are when read in [w]. *)
Definition pageOf (w : World) : Page := page (host w) (tick (browser w)).

Definition next_tick (b : Browser) : Browser :=
  {| tick := S (tick b); timers := timers b; nextTimer := nextTimer b;
     nextHandle := nextHandle b; output := output b |}.

Definition emit (e : Effect) (b : Browser) : Browser :=
  {| tick := tick b; timers := timers b; nextTimer := nextTimer b;
     nextHandle := nextHandle b; output := output b ++ [e] |}.

Definition add_timer (cb : TimerCallback) (b : Browser) : Browser :=
  {| tick := tick b; timers := <[nextTimer b := cb]> (timers b);
     nextTimer := S (nextTimer b);
     nextHandle := nextHandle b; output := output b |}.

Definition drop_timer (id : nat) (b : Browser) : Browser :=
  {| tick := tick b; timers := delete id (timers b); nextTimer := nextTimer b;
     nextHandle := nextHandle b; output := output b |}.

Definition next_handle (b : Browser) : Browser :=
  {| tick := tick b; timers := timers b; nextTimer := nextTimer b;
     nextHandle := S (nextHandle b); output := output b |}.

(** ** Computations

    A method runs on the world and either returns or throws; what it did
    before throwing stays done. *)

Definition M (A : Type) : Type := World -> World * (Exn + A).

Definition ret {A} (a : A) : M A := fun w => (w, inr a).

Definition bind {A B} (m : M A) (k : A -> M B) : M B :=
  fun w =>
    match m w with
    | (w', inr a) => k a w'
    | (w', inl e) => (w', inl e)
    end.

Definition throw {A} (e : Exn) : M A := fun w => (w, inl e).

(** [try { body } catch (e) { handler }] *)
Definition tryCatch {A} (body : M A) (handler : Exn -> M A) : M A :=
  fun w =>
    match body w with
    | (w', inl e) => handler e w'
    | (w', inr a) => (w', inr a)
    end.

Definition get : M World := fun w => (w, inr w).
Definition modify (f : World -> World) : M unit := fun w => (f w, inr tt).

Declare Scope js_scope.
Delimit Scope js_scope with js.
Notation "x <- m ;; k" := (bind m (fun x => k))
  (at level 100, m at level 99, right associativity) : js_scope.
Notation "m ;; k" := (bind m (fun _ => k))
  (at level 100, right associativity) : js_scope.
Local Open Scope js_scope.

(** [array.forEach(f)] *)
Fixpoint forEach {A} (f : A -> M unit) (l : list A) : M unit :=
  match l with
  | [] => ret tt
  | x :: l' => f x ;; forEach f l'
  end.

Definition world_after {A} (r : World * (Exn + A)) : World := fst r.
Definition returned {A} (r : World * (Exn + A)) : Prop :=
  exists a, snd r = inr a.

(** ** The browser's functions *)

Definition effect (e : Effect) : M unit := modify (with_browser (emit e)).

Definition console_log (m : Message) : M unit := effect (ConsoleLog m).
Definition console_error (m : Message) : M unit := effect (ConsoleError m).
Definition alert (d : Dialog) : M unit := effect (Alert d).

(** [Date.now()] *)
Definition Date_now : M Z :=
  w <- get ;;
  modify (with_browser next_tick) ;;
  ret (clock (host w) (tick (browser w))).

(** Whether the host lets the call that is about to be made throw. *)
Definition host_throws : M bool :=
  w <- get ;;
  modify (with_browser next_tick) ;;
  ret (throws (host w) (tick (browser w))).

(** [window.confirm(message)] *)
Definition window_confirm (d : Dialog) : M bool :=
  w <- get ;;
  modify (with_browser next_tick) ;;
  let answer := answers (host w) (tick (browser w)) in
  effect (Confirm d answer) ;;
  ret answer.

(** [window.scrollTo({ top, behavior: 'smooth' })]: the scrolling itself
    happens after the method has returned. *)
Definition window_scrollTo (top : Q) : M unit :=
  failed <- host_throws ;;
  if failed then throw DOMException else effect (ScrollTo top).

(** [setTimeout(callback, delay)] *)
Definition setTimeout (cb : TimerCallback) (delay : Z) : M nat :=
  w <- get ;;
  let id := nextTimer (browser w) in
  modify (with_browser (add_timer cb)) ;;
  effect (SetTimeout id cb delay) ;;
  ret id.

(** [clearTimeout(id)] *)
Definition clearTimeout (id : nat) : M unit :=
  modify (with_browser (drop_timer id)) ;;
  effect (ClearTimeout id).

(** [new SpeechRecognition()], where [SpeechRecognition] is the first of
    the four constructors that exists; there is nothing to construct when
    none does. *)
Definition new_SpeechRecognition : M nat :=
  w <- get ;;
  if supported (host w) then
    modify (with_browser next_handle) ;;
    ret (nextHandle (browser w))
  else throw TypeError.

(** [recognition.start()] on [this.recognition] *)
Definition recognition_start (r : option nat) : M unit :=
  match r with
  | None => throw TypeError
  | Some h =>
      failed <- host_throws ;;
      if failed then throw DOMException else effect (RecognitionStart h)
  end.

(** [recognition.stop()] *)
Definition recognition_stop (h : nat) : M unit := effect (RecognitionStop h).

(** ** The methods of the class *)

(** [a || b] on a number, a number of pixels and a string. *)
Definition orZ (a : option Z) (b : Z) : Z :=
  match a with
  | Some n => if n =? 0 then b else n
  | None => b
  end.

Definition orQ (a : option Q) (b : Q) : Q :=
  match a with
  | Some q => if Qeq_bool q 0 then b else q
  | None => b
  end.

Definition orString (a : option string) (b : string) : string :=
  match a with
  | Some s => if Str.isEmpty s then b else s
  | None => b
  end.

(** The four properties written before the spread. *)
Definition defaults (arg : ConfigArg) : Config :=
  {| idleDuration := orZ (arg_idleDuration arg) 10000;
     debounceDelay := orZ (arg_debounceDelay arg) 500;
     scrollAmount := orQ (arg_scrollAmount arg) 100;
     lang := orString (arg_lang arg) "en-US" |}.

(** [{ ...base, ...config }]: a key of [config] replaces the property
    written before it. *)
Definition spread (base : Config) (arg : ConfigArg) : Config :=
  {| idleDuration := default (idleDuration base) (arg_idleDuration arg);
     debounceDelay := default (debounceDelay base) (arg_debounceDelay arg);
     scrollAmount := default (scrollAmount base) (arg_scrollAmount arg);
     lang := default (lang base) (arg_lang arg) |}.

(** The constructor.  [init] touches the DOM only. *)
Definition constructor (arg : ConfigArg) : Controller :=
  {| config := spread (defaults arg) arg;
     state := {| isListening := false; lastCommand := "";
                 lastCommandTime := 0 |};
     recognition := None;
     idleTimeout := None |}.

Definition noiseWords (v : Variant) : gset string :=
  match v with
  | VariantA =>
      list_to_set ["uh"; "um"; "like"; "you know"; "so";
                   "ohhh"; "heyy"; "haaaa"; "shhshshh"; "the"; "a"; "an"]
  | VariantB =>
      list_to_set ["uh"; "um"; "like"; "you know"; "so";
                   "ohhh"; "heyy"; "haaaa"; "shhshshh"]
  end.

(** [this.noiseWords.has(word)] *)
Definition isNoise (v : Variant) (word : string) : bool :=
  bool_decide (word ∈ noiseWords v).

Definition cleanTranscript (v : Variant) (transcript : string) : list string :=
  let tokens :=
    Str.splitWhitespace (Str.trim (Str.toLowerCase transcript)) in
  match v with
  | VariantA =>
      List.filter
        (fun word => negb (Str.isEmpty word) && negb (isNoise v word)) tokens
  | VariantB =>
      List.filter (fun word => negb (isNoise v word)) tokens
  end.

(** The elements of the page are taken to exist here, so that reading
    their properties has no effect on the world; [Dom.updateUIState]
    below is the method on a page that may lack them. *)
Definition updateUIState (isActive : bool) : M unit :=
  modify (with_this (fun c => set_state (set_isListening isActive (state c)) c)).

(** [if (this.idleTimeout)] holds for an identifier other than 0. *)
Definition clearIdleTimeout : M unit :=
  w <- get ;;
  match idleTimeout (this w) with
  | Some id =>
      if (id =? 0)%nat then ret tt
      else
        clearTimeout id ;;
        modify (with_this (set_idleTimeout None))
  | None => ret tt
  end.

Definition stopRecognition : M unit :=
  w <- get ;;
  match recognition (this w) with
  | Some h =>
      recognition_stop h ;;
      modify (with_this (set_recognition None))
  | None => ret tt
  end ;;
  clearIdleTimeout ;;
  updateUIState false ;;
  console_log MsgStopped.

Definition resetIdleTimeout : M unit :=
  clearIdleTimeout ;;
  w <- get ;;
  id <- setTimeout IdleCallback (idleDuration (config (this w))) ;;
  modify (with_this (set_idleTimeout (Some id))).

Definition smoothScroll (v : Variant) (position : Q) : M unit :=
  w <- get ;;
  match v with
  | VariantA =>
      window_scrollTo (Qmax 0 (Qmin position (scrollHeight (pageOf w))))
  | VariantB =>
      window_scrollTo (Qmax 0 position)
  end.

(** An entry of [this.commands]. *)
Record Command := {
  description : string;
  action : M unit
}.

(** [this.commands], in the order the object literal lists its keys. *)
Definition commands (v : Variant) : list (string * Command) :=
  [ ("up",
      {| description := "Scroll up";
         action :=
           w <- get ;;
           smoothScroll v
             (scrollY (pageOf w) - scrollAmount (config (this w)))%Q |});
    ("down",
      {| description := "Scroll down";
         action :=
           w <- get ;;
           smoothScroll v
             (scrollY (pageOf w) + scrollAmount (config (this w)))%Q |});
    ("top",
      {| description := "Scroll to the top of the page";
         action := smoothScroll v 0 |});
    ("bottom",
      {| description := "Scroll to the bottom of the page";
         action := w <- get ;; smoothScroll v (scrollHeight (pageOf w)) |});
    ("fly",
      {| description := "Scroll up half a page";
         action :=
           w <- get ;;
           smoothScroll v
             (scrollY (pageOf w) - innerHeight (pageOf w) / 2)%Q |});
    ("jump",
      {| description := "Scroll down half a page";
         action :=
           w <- get ;;
           smoothScroll v
             (scrollY (pageOf w) + innerHeight (pageOf w) / 2)%Q |}) ]
  ++ match v with
     | VariantA =>
         [ ("stop",
             {| description := "Stop voice control";
                action := stopRecognition |}) ]
     | VariantB => []
     end.

(** [Object.keys(this.commands)] *)
Definition commandNames (v : Variant) : list string := (commands v).*1.

(** [this.commands[command]] *)
Fixpoint lookupCommand (command : string) (table : list (string * Command))
  : option Command :=
  match table with
  | [] => None
  | (name, c) :: table' =>
      if String.eqb name command then Some c else lookupCommand command table'
  end.

(** [Array.prototype.find]; [None] stands for [undefined]. *)
Definition findMatchingCommand (v : Variant) (word : string) : option string :=
  List.find (fun cmd => RegExp.test cmd word) (commandNames v).

Definition canExecuteCommand (command : string) : M bool :=
  now <- Date_now ;;
  w <- get ;;
  let timeSinceLastCommand := now - lastCommandTime (state (this w)) in
  ret (negb (String.eqb command (lastCommand (state (this w))))
       || (timeSinceLastCommand >? debounceDelay (config (this w)))).

Definition showCommandFeedback : M unit :=
  _ <- setTimeout FeedbackCallback 300 ;; ret tt.

Definition executeCommand (v : Variant) (command : string) : M unit :=
  tryCatch
    (match lookupCommand command (commands v) with
     | Some c => action c
     | None => throw TypeError
     end ;;
     modify (with_this (fun c => set_state (set_lastCommand command (state c)) c)) ;;
     now <- Date_now ;;
     modify (with_this (fun c => set_state (set_lastCommandTime now (state c)) c)) ;;
     console_log (MsgExecuted command) ;;
     match v with
     | VariantA => showCommandFeedback
     | VariantB => ret tt
     end)
    (fun error => console_error (MsgExecuteFailed command error)).

(** A command name is a non-empty string, so [command && ...] goes on
    exactly when [find] returned one. *)
Definition processCommand (v : Variant) (word : string) : M unit :=
  match findMatchingCommand v word with
  | Some command =>
      allowed <- canExecuteCommand command ;;
      if allowed then executeCommand v command
      else console_log (MsgDebounced command)
  | None =>
      match v with
      | VariantA => ret tt
      | VariantB => console_log (MsgUnknownCommand word)
      end
  end.

(** The last result of a result event: its first alternative. *)
Record ResultEvent := {
  transcript : string;
  confidence : Q
}.

Definition handleRecognitionResult (v : Variant) (event : ResultEvent) : M unit :=
  resetIdleTimeout ;;
  match v with
  | VariantA => console_log (MsgHeard (transcript event) (confidence event))
  | VariantB => ret tt
  end ;;
  forEach (processCommand v) (cleanTranscript v (transcript event)).

(** [event?.error || 'Unknown error']; [None] is an event without the
    property, as the exception passed on by [startRecognition] is. *)
Definition errorMessageOf (error : option string) : string :=
  orString error "Unknown error".

Definition handleRecognitionError (v : Variant) (error : option string) : M unit :=
  let errorMessage := errorMessageOf error in
  console_error (MsgRecognitionError errorMessage) ;;
  match v with
  | VariantA =>
      if String.eqb errorMessage "not-allowed"
         || String.eqb errorMessage "permission-denied"
      then alert DlgAccessDenied ;; stopRecognition
      else if String.eqb errorMessage "no-speech"
      then console_log MsgNoSpeech
      else if String.eqb errorMessage "audio-capture"
      then alert DlgNoMicrophone ;; stopRecognition
      else if String.eqb errorMessage "network"
      then console_log MsgNetwork
      else console_log (MsgOtherError errorMessage)
  | VariantB =>
      if String.eqb errorMessage "not-allowed"
      then alert DlgAccessDenied ;; stopRecognition
      else ret tt
  end.

Definition handleRecognitionEnd : M unit :=
  w <- get ;;
  if isListening (state (this w)) then
    tryCatch
      (recognition_start (recognition (this w)))
      (fun error =>
         console_error (MsgRestartFailed error) ;;
         stopRecognition)
  else ret tt.

Definition showCommandsList (v : Variant) : M unit :=
  match v with
  | VariantA =>
      ok <- window_confirm DlgCommands ;;
      if ok then ret tt else stopRecognition
  | VariantB => alert DlgCommands
  end.

Definition startRecognition (v : Variant) : M unit :=
  tryCatch
    (h <- new_SpeechRecognition ;;
     modify (with_this (set_recognition (Some h))) ;;
     w <- get ;;
     effect (NewRecognition h (lang (config (this w)))) ;;
     recognition_start (Some h) ;;
     updateUIState true ;;
     showCommandsList v ;;
     resetIdleTimeout ;;
     console_log MsgStarted)
    (fun error =>
       console_error (MsgStartFailed error) ;;
       handleRecognitionError v None).

Definition toggleRecognition (v : Variant) : M unit :=
  w <- get ;;
  if isListening (state (this w)) then stopRecognition
  else startRecognition v.

(** On a page with its elements; [Dom.destroy] below has the call of
    [removeEventListener]. *)
Definition destroy : M unit :=
  stopRecognition ;;
  modify (with_this (set_recognition None)).

(** The browser calls the function of a pending timer and forgets the
    timer; an identifier that is not pending calls nothing. *)
Definition fireTimer (v : Variant) (id : nat) : M unit :=
  w <- get ;;
  match timers (browser w) !! id with
  | Some cb =>
      modify (with_browser (drop_timer id)) ;;
      match cb with
      | IdleCallback =>
          match v with
          | VariantA => console_log MsgInactivity
          | VariantB => ret tt
          end ;;
          stopRecognition
      | FeedbackCallback => ret tt
      end
  | None => ret tt
  end.

(** ** The event loop: one handler at a time *)

Inductive Event :=
| Click                               (* the microphone button *)
| OnResult (event : ResultEvent)      (* recognition.onresult *)
| OnError (error : option string)     (* recognition.onerror *)
| OnEnd                               (* recognition.onend *)
| TimerFires (id : nat)
| Destroy                             (* destroy(), as on beforeunload *)
| Elapse.                             (* time passes, the page may move *)

(** [validateBrowserSupport]: one of the four constructors exists. *)
Definition validateBrowserSupport (w : World) : bool := supported (host w).

(** [init] attaches the click listener only when the browser is
    supported; the recognition events are taken as they come. *)
Definition handler (v : Variant) (e : Event) : M unit :=
  match e with
  | Click =>
      w <- get ;;
      if validateBrowserSupport w then toggleRecognition v else ret tt
  | OnResult event => handleRecognitionResult v event
  | OnError error => handleRecognitionError v error
  | OnEnd => handleRecognitionEnd
  | TimerFires id => fireTimer v id
  | Destroy => destroy
  | Elapse => modify (with_browser next_tick)
  end.

Definition step (v : Variant) (w : World) (e : Event) : World :=
  world_after (handler v e w).

Definition run (v : Variant) (w : World) (events : list Event) : World :=
  fold_left (step v) events w.

(** A page that has just built its controller: no timer is pending, and
    the identifiers the browser will hand out are positive. *)
Definition freshBrowser : Browser :=
  {| tick := 0; timers := ∅; nextTimer := 1; nextHandle := 1; output := [] |}.

Definition initialWorld (arg : ConfigArg) (h : Host) : World :=
  {| this := constructor arg; host := h; browser := freshBrowser |}.

Inductive reachable (v : Variant) (arg : ConfigArg) (h : Host) : World -> Prop :=
| reachable_init : reachable v arg h (initialWorld arg h)
| reachable_step w e :
    reachable v arg h w -> reachable v arg h (step v w e).

(** * Notions used by the statements *)

Module Tokens.

(** An empty string, or one whose last character is white space. *)
Fixpoint endsOpen (s : string) : bool :=
  match s with
  | EmptyString => true
  | String c EmptyString => Char.isWhiteSpace c
  | String _ s' => endsOpen s'
  end.

Definition startsWithSpace (s : string) : bool :=
  match s with
  | EmptyString => false
  | String c _ => Char.isWhiteSpace c
  end.

(** The cleaning as the specification words it: lower-case, trim, split
    on white space runs, drop the empty tokens and the noise words. *)
Definition cleanTranscript_spec (v : Variant) (transcript : string)
  : list string :=
  List.filter (fun word => negb (Str.isEmpty word))
    (List.filter (fun word => negb (isNoise v word))
       (Str.splitWhitespace (Str.trim (Str.toLowerCase transcript)))).

(** A transcript composed only of noise words: each of its words, in
    lower case, is a word of an entry of the noise-word set. *)
Definition onlyNoise (v : Variant) (transcript : string) : Prop :=
  Forall (fun word =>
            exists entry,
              entry ∈ noiseWords v /\ In word (Str.words_from entry))
         (Str.words_from (Str.toLowerCase transcript)).

(** A transcript each of whose words is itself an entry of the set. *)
Definition onlyNoiseEntries (v : Variant) (transcript : string) : Prop :=
  Forall (fun word => word ∈ noiseWords v)
         (Str.words_from (Str.toLowerCase transcript)).

(** The membership test of [cleanTranscript] without the entry of two
    words. *)
Definition isNoiseWithout (entry : string) (v : Variant) (word : string)
  : bool :=
  bool_decide (word ∈ noiseWords v ∖ {[entry]}).

End Tokens.

(** What it means for [\b<lit>\b] to match inside a string, said without
    the search: the string is [pre ++ mid ++ post], [mid] is the literal up
    to case, and there is a word boundary on either side of [mid]. *)
Module Occurs.

Fixpoint sameText (lit mid : string) : bool :=
  match lit, mid with
  | EmptyString, EmptyString => true
  | String l lit', String c mid' => RegExp.sameChar l c && sameText lit' mid'
  | _, _ => false
  end.

(** The last character of [s], or [prev] when [s] is empty. *)
Fixpoint lastChar (prev : option ascii) (s : string) : option ascii :=
  match s with
  | EmptyString => prev
  | String c s' => lastChar (Some c) s'
  end.

Definition matchesAt (lit : string) (prev : option ascii)
    (pre mid post : string) : Prop :=
  sameText lit mid = true /\
  RegExp.boundary (lastChar prev pre) (RegExp.head (mid +:+ post)) = true /\
  RegExp.boundary (lastChar (lastChar prev pre) mid) (RegExp.head post) = true.

Definition occurs (lit s : string) : Prop :=
  exists pre mid post,
    s = pre +:+ mid +:+ post /\ matchesAt lit None pre mid post.

End Occurs.

(** The claim's own words for a match, written without the regular
    expression: the token is [pre ++ mid ++ post], [mid] read with its
    capital letters A-Z turned into small ones is the command name, and
    the characters next to [mid], if any, are none of the letters, digits
    and underscore.  The classes are spelled out as the strings of their
    characters. *)
Module Wording.

Definition capitals : string := "ABCDEFGHIJKLMNOPQRSTUVWXYZ".
Definition smalls : string := "abcdefghijklmnopqrstuvwxyz".
Definition digits : string := "0123456789".

Fixpoint member (c : ascii) (s : string) : bool :=
  match s with
  | EmptyString => false
  | String a s' => Ascii.eqb c a || member c s'
  end.

(** The character of [to] at the place [c] has in [from], or [c]. *)
Fixpoint translate (from to : string) (c : ascii) : ascii :=
  match from, to with
  | String f from', String t to' =>
      if Ascii.eqb c f then t else translate from' to' c
  | _, _ => c
  end.

Definition small (c : ascii) : ascii := translate capitals smalls c.

Fixpoint smallText (s : string) : string :=
  match s with
  | EmptyString => EmptyString
  | String c s' => String (small c) (smallText s')
  end.

Definition isWord (c : ascii) : bool :=
  member c smalls || member c capitals || member c digits || Ascii.eqb c "_".

(** No character there, or one outside the word characters. *)
Definition free (c : option ascii) : bool :=
  match c with
  | None => true
  | Some c => negb (isWord c)
  end.

Definition first (s : string) : option ascii :=
  match s with
  | EmptyString => None
  | String c _ => Some c
  end.

Fixpoint final (s : string) : option ascii :=
  match s with
  | EmptyString => None
  | String c EmptyString => Some c
  | String _ s' => final s'
  end.

Definition occursAsWord (name token : string) : Prop :=
  exists pre mid post,
    token = pre +:+ mid +:+ post /\
    smallText mid = name /\
    free (final pre) = true /\
    free (first post) = true.

(** A command name: small letters only, and at least one. *)
Fixpoint allSmall (s : string) : bool :=
  match s with
  | EmptyString => true
  | String c s' => member c smalls && allSmall s'
  end.

Definition isName (s : string) : bool := negb (Str.isEmpty s) && allSmall s.

End Wording.

(** The idle timers that are still pending, and the invariant that ties
    them to [this.idleTimeout]. *)
Definition idlePending (w : World) (id : nat) : Prop :=
  timers (browser w) !! id = Some IdleCallback.

Record TimerInv (w : World) : Prop := {
  inv_idle : forall id, idlePending w id -> idleTimeout (this w) = Some id;
  inv_range : forall id cb,
      timers (browser w) !! id = Some cb -> (0 < id < nextTimer (browser w))%nat;
  inv_next : (0 < nextTimer (browser w))%nat;
  inv_truthy : forall id, idleTimeout (this w) = Some id -> (0 < id)%nat
}.

(** No pending idle timer of [w] is still pending in [w']. *)
Definition staleCancelled (w w' : World) : Prop :=
  forall id, idlePending w id -> ~ idlePending w' id.

(** The gate of [canExecuteCommand] as the specification words it. *)
Definition debounceGate (command : string) (now : Z) (w : World) : Prop :=
  command <> lastCommand (state (this w)) \/
  now - lastCommandTime (state (this w)) > debounceDelay (config (this w)).

(** The value [Date.now()] returns when called in [w]. *)
Definition nowOf (w : World) : Z := clock (host w) (tick (browser w)).

(** Whether the next call that may fail throws in [w]. *)
Definition nextThrows (w : World) : bool := throws (host w) (tick (browser w)).

Definition ticked (w : World) : World := with_browser next_tick w.
Definition logged (e : Effect) (w : World) : World := with_browser (emit e) w.

(** ** The elements of the page

    The constructor looks three elements up, and each lookup answers an
    element or null.  The methods above are those of a controller on a page
    where the elements exist.  Here a lookup may have answered null;
    reading a property of null throws a [TypeError]. *)
Module Dom.

(** [this.elements]: whether the lookup answered an element.  The third
    element is [statusIndicator] in variant A and [micRec] in variant B. *)
Record Elements := {
  micBtn : bool;
  micIcon : bool;
  third : bool
}.

Definition validateDOMElements (v : Variant) (els : Elements) : bool :=
  match v with
  | VariantA => micBtn els && micIcon els
  | VariantB => micBtn els && micIcon els && third els
  end.

(** Reading a property of what a lookup answered. *)
Definition propertyOf (element : bool) : M unit :=
  if element then ret tt else throw TypeError.

(** Both branches read [micIcon.classList] first; variant A goes on to
    [micIcon.style] and [micBtn.setAttribute], and tests
    [statusIndicator] before it reads it. *)
Definition updateUIState (v : Variant) (els : Elements) (isActive : bool)
  : M unit :=
  modify (with_this (fun c => set_state (set_isListening isActive (state c)) c)) ;;
  propertyOf (micIcon els) ;;
  match v with
  | VariantA =>
      propertyOf (micIcon els) ;;
      propertyOf (micBtn els) ;;
      if third els then propertyOf (third els) else ret tt
  | VariantB => ret tt
  end.

Definition stopRecognition (v : Variant) (els : Elements) : M unit :=
  w <- get ;;
  match recognition (this w) with
  | Some h =>
      recognition_stop h ;;
      modify (with_this (set_recognition None))
  | None => ret tt
  end ;;
  clearIdleTimeout ;;
  updateUIState v els false ;;
  console_log MsgStopped.

(** [micBtn.removeEventListener('click', this.toggleRecognition)]: the
    listener that was added is another function, an arrow function, so
    the call removes nothing. *)
Definition removeEventListener : M unit := ret tt.

Definition destroy (v : Variant) (els : Elements) : M unit :=
  stopRecognition v els ;;
  match v with
  | VariantA =>
      if micBtn els then removeEventListener else ret tt
  | VariantB =>
      propertyOf (micBtn els) ;;
      removeEventListener
  end ;;
  modify (with_this (set_recognition None)).

End Dom.

(** ** Worlds to evaluate on *)

Definition examplePage : Page :=
  {| scrollY := 300; innerHeight := 600; scrollHeight := 2000 |}.

Definition calmHost : Host :=
  {| page := fun _ => examplePage; supported := true;
     clock := fun n => 1000 * Z.of_nat n;
     throws := fun _ => false;
     answers := fun _ => true |}.

Definition failingHost : Host :=
  {| page := fun _ => examplePage; supported := true;
     clock := fun n => 1000 * Z.of_nat n;
     throws := fun _ => true;
     answers := fun _ => true |}.

(** A host whose second question about a failing call is answered yes,
    and no other. *)
Definition failingOnceHost : Host :=
  {| page := fun _ => examplePage; supported := true;
     clock := fun n => 1000 * Z.of_nat n;
     throws := fun n => Nat.eqb n 1;
     answers := fun _ => true |}.

(** A host whose user declines every dialog. *)
Definition decliningHost : Host :=
  {| page := fun _ => examplePage; supported := true;
     clock := fun n => 1000 * Z.of_nat n;
     throws := fun _ => false;
     answers := fun _ => false |}.

(** A browser without a recognition constructor. *)
Definition bareHost : Host :=
  {| page := fun _ => examplePage; supported := false;
     clock := fun n => 1000 * Z.of_nat n;
     throws := fun _ => false;
     answers := fun _ => true |}.

(** A host whose clock moves 100 ms with every tick. *)
Definition quickHost : Host :=
  {| page := fun _ => examplePage; supported := true;
     clock := fun n => 100 * Z.of_nat n;
     throws := fun _ => false;
     answers := fun _ => true |}.

Definition utterance (text : string) : Event :=
  OnResult {| transcript := text; confidence := 1 |}.

(** The positions passed to [window.scrollTo], oldest first. *)
Definition scrolls (w : World) : list Q :=
  omap (fun e => match e with ScrollTo top => Some top | _ => None end)
       (output (browser w)).

Definition noArg : ConfigArg :=
  {| arg_idleDuration := None; arg_debounceDelay := None;
     arg_scrollAmount := None; arg_lang := None |}.

Definition zeroArg : ConfigArg :=
  {| arg_idleDuration := Some 0; arg_debounceDelay := Some 0;
     arg_scrollAmount := Some 0%Q; arg_lang := Some "" |}.

Definition calmWorld : World := initialWorld noArg calmHost.
Definition failingWorld : World := initialWorld noArg failingHost.
Definition failingOnceWorld : World := initialWorld noArg failingOnceHost.

(** A world that executed [down] at time 1000 and reads the clock at
    [now]. *)
Definition afterDown (now : Z) : World :=
  {| this :=
       set_state {| isListening := true; lastCommand := "down";
                    lastCommandTime := 1000 |} (constructor noArg);
     host := {| page := fun _ => examplePage; supported := true;
                clock := fun _ => now;
                throws := fun _ => false; answers := fun _ => true |};
     browser := freshBrowser |}.

(** A page with every element, one without the [.mic] icon and one
    without the microphone button. *)
Definition allElements : Dom.Elements :=
  {| Dom.micBtn := true; Dom.micIcon := true; Dom.third := true |}.
Definition noIcon : Dom.Elements :=
  {| Dom.micBtn := true; Dom.micIcon := false; Dom.third := true |}.
Definition noButton : Dom.Elements :=
  {| Dom.micBtn := false; Dom.micIcon := true; Dom.third := true |}.

(** [calmWorld] after a click on the microphone button. *)
Definition listeningWorld (v : Variant) : World := step v calmWorld Click.

(** A computation that moves the world along the relation [R]. *)
Definition respects (R : World -> World -> Prop) {A} (m : M A) : Prop :=
  forall w, R w (world_after (m w)).

(** A computation that never throws. *)
Definition total {A} (m : M A) : Prop := forall w, returned (m w).

(** The configuration of [w] is the configuration of [w']. *)
Definition sameConfig (w w' : World) : Prop :=
  config (this w') = config (this w).

(** Timers are only added under fresh identifiers: a timer with an old
    identifier that is pending in [w'] was pending in [w]. *)
Definition timersGrow (w w' : World) : Prop :=
  (nextTimer (browser w) <= nextTimer (browser w'))%nat /\
  forall id cb,
    (id < nextTimer (browser w))%nat ->
    timers (browser w') !! id = Some cb -> timers (browser w) !! id = Some cb.

Definition keepsInv (w w' : World) : Prop := TimerInv w -> TimerInv w'.

(** ** Notions for the rest of the class *)

(** A listening controller holds a recognition object. *)
Definition coherent (w : World) : Prop :=
  isListening (state (this w)) = true ->
  exists handle, recognition (this w) = Some handle.

Definition keepsCoherent (w w' : World) : Prop := coherent w -> coherent w'.

(** The memory of the debounce gate is left as it was. *)
Definition sameLast (w w' : World) : Prop :=
  lastCommand (state (this w')) = lastCommand (state (this w)) /\
  lastCommandTime (state (this w')) = lastCommandTime (state (this w)).

(** The listening flag and the recognition object are left as they were. *)
Definition sameSession (w w' : World) : Prop :=
  isListening (state (this w')) = isListening (state (this w)) /\
  recognition (this w') = recognition (this w).

(** The host stays the same, and without a recognition constructor a
    controller that is not listening stays so. *)
Definition staysOff (w w' : World) : Prop :=
  host w' = host w /\
  (supported (host w) = false ->
   isListening (state (this w)) = false ->
   isListening (state (this w')) = false).

(** Nothing is taken back from what was done to the browser. *)
Definition outputGrows (w w' : World) : Prop :=
  exists es, output (browser w') = output (browser w) ++ es.

(** [this.idleTimeout] is left as it was, and so is every timer that was
    pending or could have been: only fresh identifiers are added. *)
Definition keepsPending (w w' : World) : Prop :=
  idleTimeout (this w') = idleTimeout (this w) /\
  (nextTimer (browser w) <= nextTimer (browser w'))%nat /\
  forall id,
    (id < nextTimer (browser w))%nat ->
    timers (browser w') !! id = timers (browser w) !! id.

(** [s] followed by the one character [c]. *)
Definition snoc (s : string) (c : ascii) : string :=
  s +:+ String c EmptyString.

Create HintDb respects_db.

(** * String lemmas *)

Module StrFacts.
Import Str Tokens.

Lemma isEmpty_true s : isEmpty s = true <-> s = EmptyString.
Proof. destruct s; simpl; split; congruence. Qed.

Lemma split_from_false s :
  split_from false s =
  (if startsWithSpace s then [EmptyString] else []) ++ split_from true s.
Proof.
  destruct s as [|c s]; simpl; [reflexivity|].
  destruct (Char.isWhiteSpace c); reflexivity.
Qed.

Lemma words_from_head c s :
  Char.isWhiteSpace c = false ->
  exists tok rest, words_from (String c s) = String c tok :: rest.
Proof.
  intros Hc. simpl. rewrite Hc.
  destruct s as [|c' s']; [eauto|].
  destruct (Char.isWhiteSpace c'); [eauto|].
  destruct (words_from (String c' s')); eauto.
Qed.

Lemma endsOpen_cons_space c s :
  Char.isWhiteSpace c = true -> endsOpen (String c s) = endsOpen s.
Proof. intros Hc. destruct s; simpl; auto. Qed.

Lemma endsOpen_cons c c' s :
  endsOpen (String c (String c' s)) = endsOpen (String c' s).
Proof. reflexivity. Qed.

Lemma split_from_cons b c s :
  split_from b (String c s) =
  if Char.isWhiteSpace c then
    if b then split_from true s else EmptyString :: split_from true s
  else
    match split_from false s with
    | tok :: rest => String c tok :: rest
    | [] => [String c EmptyString]
    end.
Proof. reflexivity. Qed.

Lemma words_from_cons2 c c' s :
  words_from (String c (String c' s)) =
  if Char.isWhiteSpace c then words_from (String c' s)
  else if Char.isWhiteSpace c'
       then String c EmptyString :: words_from (String c' s)
       else match words_from (String c' s) with
            | tok :: rest => String c tok :: rest
            | [] => [String c EmptyString]
            end.
Proof. reflexivity. Qed.

(** After white space, [split] yields the words and, when the string is
    empty or ends in white space, one empty substring more. *)
Lemma split_from_true s :
  split_from true s =
  words_from s ++ (if endsOpen s then [EmptyString] else []).
Proof.
  induction s as [|c s IH]; [reflexivity|].
  destruct (Char.isWhiteSpace c) eqn:Hc.
  - rewrite endsOpen_cons_space by assumption.
    rewrite split_from_cons, Hc, IH.
    destruct s; simpl; rewrite Hc; reflexivity.
  - destruct s as [|c' s'].
    + simpl. rewrite Hc. reflexivity.
    + rewrite endsOpen_cons, split_from_cons, Hc, split_from_false, IH.
      rewrite words_from_cons2, Hc.
      cbn [startsWithSpace].
      destruct (Char.isWhiteSpace c') eqn:Hc'.
      * reflexivity.
      * destruct (words_from_head c' s' Hc') as (tok & rest & Hw).
        rewrite Hw. reflexivity.
Qed.

Lemma splitWhitespace_words s :
  splitWhitespace s =
  (if startsWithSpace s then [EmptyString] else [])
  ++ words_from s ++ (if endsOpen s then [EmptyString] else []).
Proof. unfold splitWhitespace. rewrite split_from_false, split_from_true. reflexivity. Qed.

Lemma words_from_trimStart s : words_from (trimStart s) = words_from s.
Proof.
  induction s as [|c s IH]; [reflexivity|].
  simpl trimStart. destruct (Char.isWhiteSpace c) eqn:Hc; [|reflexivity].
  rewrite IH. simpl. rewrite Hc. reflexivity.
Qed.

Lemma trimStart_head s : startsWithSpace (trimStart s) = false.
Proof.
  induction s as [|c s IH]; [reflexivity|].
  simpl. destruct (Char.isWhiteSpace c) eqn:Hc; [assumption|].
  simpl. assumption.
Qed.

Lemma trimEnd_cons c s :
  trimEnd (String c s) =
  if Char.isWhiteSpace c && isEmpty (trimEnd s) then EmptyString
  else String c (trimEnd s).
Proof. reflexivity. Qed.

Lemma words_from_space c s :
  Char.isWhiteSpace c = true -> words_from (String c s) = words_from s.
Proof. intros Hc. simpl. rewrite Hc. reflexivity. Qed.

Lemma trimEnd_shape s :
  trimEnd s = EmptyString \/
  exists c r r', s = String c r /\ trimEnd s = String c r'.
Proof.
  destruct s as [|c s]; [left; reflexivity|].
  rewrite trimEnd_cons.
  destruct (Char.isWhiteSpace c && isEmpty (trimEnd s)); eauto 10.
Qed.

Lemma words_from_trimEnd s : words_from (trimEnd s) = words_from s.
Proof.
  induction s as [|c s IH]; [reflexivity|].
  rewrite trimEnd_cons.
  destruct (Char.isWhiteSpace c) eqn:Hc; simpl andb.
  - destruct (isEmpty (trimEnd s)) eqn:He.
    + apply isEmpty_true in He. rewrite He in IH.
      rewrite words_from_space by assumption. exact IH.
    + rewrite !words_from_space by assumption. exact IH.
  - destruct (trimEnd_shape s) as [He | (c' & r & r' & Hs & Ht)].
    + rewrite He in *. simpl. rewrite Hc.
      destruct s as [|c' s']; [reflexivity|].
      destruct (Char.isWhiteSpace c') eqn:Hc'.
      * rewrite <- IH. reflexivity.
      * destruct (words_from_head c' s' Hc') as (tok & rest & Hw).
        rewrite Hw in IH. discriminate.
    + subst s. rewrite Ht in *.
      rewrite !words_from_cons2, IH. reflexivity.
Qed.

Lemma words_from_trim s : words_from (trim s) = words_from s.
Proof. unfold trim. rewrite words_from_trimEnd. apply words_from_trimStart. Qed.

Lemma trimEnd_head s :
  startsWithSpace s = false -> startsWithSpace (trimEnd s) = false.
Proof.
  intros H. destruct (trimEnd_shape s) as [He | (c & r & r' & Hs & Ht)].
  - rewrite He. reflexivity.
  - subst s. rewrite Ht. exact H.
Qed.

Lemma trim_head s : startsWithSpace (trim s) = false.
Proof. apply trimEnd_head, trimStart_head. Qed.

Lemma trimEnd_endsOpen s : endsOpen (trimEnd s) = isEmpty (trimEnd s).
Proof.
  induction s as [|c s IH]; [reflexivity|].
  rewrite trimEnd_cons.
  destruct (Char.isWhiteSpace c) eqn:Hc; simpl andb.
  - destruct (isEmpty (trimEnd s)) eqn:He; [reflexivity|].
    rewrite endsOpen_cons_space by assumption. rewrite IH. reflexivity.
  - destruct (trimEnd s) as [|c' r] eqn:Ht.
    + simpl. exact Hc.
    + rewrite endsOpen_cons. exact IH.
Qed.

Lemma trim_endsOpen s : endsOpen (trim s) = isEmpty (trim s).
Proof. apply trimEnd_endsOpen. Qed.

(** [trim] followed by [split]: the words of the string, or one empty
    substring when the string has no word. *)
Lemma split_trim s :
  splitWhitespace (trim s) =
  words_from s ++ (if isEmpty (trim s) then [EmptyString] else []).
Proof.
  rewrite splitWhitespace_words, trim_head, trim_endsOpen, words_from_trim.
  reflexivity.
Qed.

Lemma hasWhiteSpace_cons c s :
  hasWhiteSpace (String c s) = Char.isWhiteSpace c || hasWhiteSpace s.
Proof. reflexivity. Qed.

Lemma split_from_no_space b s :
  Forall (fun tok => hasWhiteSpace tok = false) (split_from b s).
Proof.
  revert b. induction s as [|c s IH]; intros b.
  - repeat constructor.
  - simpl. destruct (Char.isWhiteSpace c) eqn:Hc.
    + destruct b; [apply IH|]. constructor; [reflexivity | apply IH].
    + specialize (IH false). destruct (split_from false s) as [|tok rest].
      * constructor; [|constructor]. rewrite hasWhiteSpace_cons, Hc. reflexivity.
      * inversion IH; subst. constructor; [|assumption].
        rewrite hasWhiteSpace_cons, Hc. assumption.
Qed.

Lemma words_from_nonempty s :
  Forall (fun tok => isEmpty tok = false) (words_from s).
Proof.
  induction s as [|c s IH]; [constructor|].
  simpl. destruct (Char.isWhiteSpace c); [assumption|].
  destruct s as [|c' s']; [repeat constructor|].
  destruct (Char.isWhiteSpace c'); [constructor; [reflexivity | assumption]|].
  destruct (words_from (String c' s')) as [|tok rest].
  - repeat constructor.
  - inversion IH; subst. constructor; [reflexivity | assumption].
Qed.

Lemma trim_empty_no_words s : isEmpty (trim s) = true -> words_from s = [].
Proof.
  intros H. apply isEmpty_true in H.
  rewrite <- words_from_trim, H. reflexivity.
Qed.

End StrFacts.

(** * Reasoning about computations *)

Lemma bind_run {A B} (m : M A) (k : A -> M B) w :
  bind m k w =
  match m w with
  | (w', inr a) => k a w'
  | (w', inl e) => (w', inl e)
  end.
Proof. reflexivity. Qed.

Lemma bind_returns {A B} (m : M A) (k : A -> M B) w w' a :
  m w = (w', inr a) -> bind m k w = k a w'.
Proof. intros H. rewrite bind_run, H. reflexivity. Qed.

Lemma bind_throws {A B} (m : M A) (k : A -> M B) w w' e :
  m w = (w', inl e) -> bind m k w = (w', inl e).
Proof. intros H. rewrite bind_run, H. reflexivity. Qed.

Lemma tryCatch_returns {A} (m : M A) (h : Exn -> M A) w w' a :
  m w = (w', inr a) -> tryCatch m h w = (w', inr a).
Proof. intros H. unfold tryCatch. rewrite H. reflexivity. Qed.

Lemma tryCatch_throws {A} (m : M A) (h : Exn -> M A) w w' e :
  m w = (w', inl e) -> tryCatch m h w = h e w'.
Proof. intros H. unfold tryCatch. rewrite H. reflexivity. Qed.

Section Respects.

Variable R : World -> World -> Prop.
Hypothesis R_refl : forall w, R w w.
Hypothesis R_trans : forall a b c, R a b -> R b c -> R a c.

Lemma respects_ret {A} (a : A) : respects R (ret a).
Proof. intros w. apply R_refl. Qed.

Lemma respects_throw {A} (e : Exn) : respects R (@throw A e).
Proof. intros w. apply R_refl. Qed.

Lemma respects_get : respects R get.
Proof. intros w. apply R_refl. Qed.

Lemma respects_bind {A B} (m : M A) (k : A -> M B) :
  respects R m -> (forall a, respects R (k a)) -> respects R (bind m k).
Proof.
  intros Hm Hk w. specialize (Hm w). unfold world_after in *.
  rewrite bind_run. destruct (m w) as [w' [e|a]]; simpl in *.
  - exact Hm.
  - eapply R_trans; [exact Hm | apply Hk].
Qed.

Lemma respects_tryCatch {A} (m : M A) (h : Exn -> M A) :
  respects R m -> (forall e, respects R (h e)) -> respects R (tryCatch m h).
Proof.
  intros Hm Hh w. specialize (Hm w). unfold world_after, tryCatch in *.
  destruct (m w) as [w' [e|a]]; simpl in *.
  - eapply R_trans; [exact Hm | apply Hh].
  - exact Hm.
Qed.

Lemma respects_modify (f : World -> World) :
  (forall w, R w (f w)) -> respects R (modify f).
Proof. intros Hf w. apply Hf. Qed.

Lemma respects_forEach {A} (f : A -> M unit) (l : list A) :
  (forall a, respects R (f a)) -> respects R (forEach f l).
Proof.
  intros Hf. induction l as [|x l IH]; simpl.
  - apply respects_ret.
  - apply respects_bind; auto.
Qed.

End Respects.

(** Take a computation apart along [bind], [tryCatch], [forEach] and case
    distinctions; [refl] and [trans] are the two laws of the relation. *)
Ltac respects_go refl trans :=
  repeat first
    [ solve [auto with respects_db]
    | match goal with
      | |- respects _ (ret _) => apply respects_ret, refl
      | |- respects _ (throw _) => apply respects_throw, refl
      | |- respects _ get => apply respects_get, refl
      | |- respects _ (bind _ _) =>
          apply (respects_bind _ trans); [| intros ?]
      | |- respects _ (tryCatch _ _) =>
          apply (respects_tryCatch _ trans); [| intros ?]
      | |- respects _ (forEach _ _) =>
          apply (respects_forEach _ refl trans); intros ?
      | |- respects _ (match ?x with _ => _ end) => destruct x
      end ].

Lemma total_ret {A} (a : A) : total (ret a).
Proof. intros w. exists a. reflexivity. Qed.

Lemma total_get : total get.
Proof. intros w. exists w. reflexivity. Qed.

Lemma total_modify f : total (modify f).
Proof. intros w. exists tt. reflexivity. Qed.

Lemma total_bind {A B} (m : M A) (k : A -> M B) :
  total m -> (forall a, total (k a)) -> total (bind m k).
Proof.
  intros Hm Hk w. destruct (Hm w) as [a Ha].
  rewrite bind_run. destruct (m w) as [w' r]. simpl in Ha. subst r.
  apply Hk.
Qed.

Lemma total_tryCatch {A} (m : M A) (h : Exn -> M A) :
  (forall e, total (h e)) -> total (tryCatch m h).
Proof.
  intros Hh w. unfold tryCatch. destruct (m w) as [w' [e|a]].
  - apply Hh.
  - exists a. reflexivity.
Qed.

Lemma total_forEach {A} (f : A -> M unit) (l : list A) :
  (forall a, total (f a)) -> total (forEach f l).
Proof.
  intros Hf. induction l as [|x l IH]; simpl.
  - apply total_ret.
  - apply total_bind; auto.
Qed.

Create HintDb total_db.

Ltac total_go :=
  repeat first
    [ solve [auto with total_db]
    | match goal with
      | |- total (ret _) => apply total_ret
      | |- total get => apply total_get
      | |- total (modify _) => apply total_modify
      | |- total (bind _ _) => apply total_bind; [| intros ?]
      | |- total (tryCatch _ _) => apply total_tryCatch; intros ?
      | |- total (forEach _ _) => apply total_forEach; intros ?
      | |- total (match ?x with _ => _ end) => destruct x
      end ].

Lemma total_effect e : total (effect e).
Proof. unfold effect. total_go. Qed.
#[local] Hint Resolve total_effect : total_db.

Lemma total_stopRecognition : total stopRecognition.
Proof.
  unfold stopRecognition, clearIdleTimeout, clearTimeout, recognition_stop,
    updateUIState, console_log.
  total_go.
Qed.
#[local] Hint Resolve total_stopRecognition : total_db.

Lemma total_resetIdleTimeout : total resetIdleTimeout.
Proof.
  unfold resetIdleTimeout, clearIdleTimeout, clearTimeout, setTimeout.
  total_go.
Qed.
#[local] Hint Resolve total_resetIdleTimeout : total_db.

(** When no call of [f] throws, [forEach] is the left fold of [f]. *)
Lemma forEach_fold {A} (f : A -> M unit) (l : list A) w :
  (forall a, total (f a)) ->
  forEach f l w = (fold_left (fun w a => world_after (f a w)) l w, inr tt).
Proof.
  intros Hf. revert w. induction l as [|x l IH]; intros w; simpl.
  - reflexivity.
  - destruct (Hf x w) as [[] Hx]. rewrite bind_run.
    unfold world_after. destruct (f x w) as [w' r]. simpl in *. subst r.
    apply IH.
Qed.

(** * The configuration is never assigned *)

Lemma sameConfig_refl w : sameConfig w w.
Proof. reflexivity. Qed.

Lemma sameConfig_trans a b c : sameConfig a b -> sameConfig b c -> sameConfig a c.
Proof. unfold sameConfig. congruence. Qed.

Lemma sameConfig_browser f : respects sameConfig (modify (with_browser f)).
Proof. intros w. reflexivity. Qed.

Lemma sameConfig_state f :
  respects sameConfig (modify (with_this (fun c => set_state (f c) c))).
Proof. intros w. reflexivity. Qed.

Lemma sameConfig_recognition r :
  respects sameConfig (modify (with_this (set_recognition r))).
Proof. intros w. reflexivity. Qed.

Lemma sameConfig_idleTimeout t :
  respects sameConfig (modify (with_this (set_idleTimeout t))).
Proof. intros w. reflexivity. Qed.

#[local] Hint Resolve sameConfig_browser sameConfig_state
  sameConfig_recognition sameConfig_idleTimeout : respects_db.

Ltac config_go := respects_go sameConfig_refl sameConfig_trans.

Lemma sameConfig_effect e : respects sameConfig (effect e).
Proof. unfold effect. config_go. Qed.
#[local] Hint Resolve sameConfig_effect : respects_db.

Lemma sameConfig_Date_now : respects sameConfig Date_now.
Proof. unfold Date_now. config_go. Qed.

Lemma sameConfig_host_throws : respects sameConfig host_throws.
Proof. unfold host_throws. config_go. Qed.
#[local] Hint Resolve sameConfig_Date_now sameConfig_host_throws : respects_db.

Lemma sameConfig_stopRecognition : respects sameConfig stopRecognition.
Proof.
  unfold stopRecognition, clearIdleTimeout, updateUIState, clearTimeout,
    recognition_stop, console_log.
  config_go.
Qed.
#[local] Hint Resolve sameConfig_stopRecognition : respects_db.

Lemma sameConfig_resetIdleTimeout : respects sameConfig resetIdleTimeout.
Proof.
  unfold resetIdleTimeout, clearIdleTimeout, clearTimeout, setTimeout.
  config_go.
Qed.
#[local] Hint Resolve sameConfig_resetIdleTimeout : respects_db.

Lemma sameConfig_smoothScroll v p : respects sameConfig (smoothScroll v p).
Proof. unfold smoothScroll, window_scrollTo. config_go. Qed.
#[local] Hint Resolve sameConfig_smoothScroll : respects_db.

Lemma sameConfig_action v command c :
  lookupCommand command (commands v) = Some c -> respects sameConfig (action c).
Proof.
  intros H. destruct v; simpl in H;
    repeat match type of H with
    | (if ?b then _ else _) = _ => destruct b; [injection H as <-; simpl; config_go |]
    end; discriminate.
Qed.

Lemma sameConfig_executeCommand v command :
  respects sameConfig (executeCommand v command).
Proof.
  unfold executeCommand, console_log, console_error, showCommandFeedback,
    setTimeout.
  apply (respects_tryCatch _ sameConfig_trans); [| intros ?; config_go].
  apply (respects_bind _ sameConfig_trans); [| intros ?; config_go].
  destruct (lookupCommand command (commands v)) eqn:H.
  - eapply sameConfig_action; eassumption.
  - config_go.
Qed.
#[local] Hint Resolve sameConfig_executeCommand : respects_db.

Lemma sameConfig_processCommand v word :
  respects sameConfig (processCommand v word).
Proof. unfold processCommand, canExecuteCommand, console_log. config_go. Qed.
#[local] Hint Resolve sameConfig_processCommand : respects_db.

Lemma sameConfig_handleRecognitionError v error :
  respects sameConfig (handleRecognitionError v error).
Proof.
  unfold handleRecognitionError, console_error, console_log, alert. config_go.
Qed.
#[local] Hint Resolve sameConfig_handleRecognitionError : respects_db.

Lemma sameConfig_handler v e : respects sameConfig (handler v e).
Proof.
  destruct e; simpl.
  - unfold toggleRecognition, startRecognition, showCommandsList,
      new_SpeechRecognition, recognition_start, updateUIState, window_confirm,
      console_log, console_error, alert.
    config_go.
  - unfold handleRecognitionResult, console_log. config_go.
  - config_go.
  - unfold handleRecognitionEnd, recognition_start, console_error. config_go.
  - unfold fireTimer, console_log. config_go.
  - unfold destroy. config_go.
  - config_go.
Qed.

Lemma sameConfig_run v events w : sameConfig w (run v w events).
Proof.
  revert w. induction events as [|e events IH]; intros w; simpl.
  - reflexivity.
  - eapply sameConfig_trans; [apply (sameConfig_handler v e w) | apply IH].
Qed.

(** * What the single methods compute *)

Lemma window_scrollTo_run top w :
  window_scrollTo top w =
  if nextThrows w then (ticked w, inl DOMException)
  else (logged (ScrollTo top) (ticked w), inr tt).
Proof.
  unfold window_scrollTo, host_throws, nextThrows. rewrite bind_run. simpl.
  destruct (throws (host w) (tick (browser w))); reflexivity.
Qed.

Lemma smoothScroll_run v p w :
  smoothScroll v p w =
  window_scrollTo
    (match v with
     | VariantA => Qmax 0 (Qmin p (scrollHeight (pageOf w)))
     | VariantB => Qmax 0 p
     end) w.
Proof. destruct v; reflexivity. Qed.

Lemma canExecuteCommand_run command w :
  canExecuteCommand command w =
  (ticked w,
   inr (negb (String.eqb command (lastCommand (state (this w))))
        || (nowOf w - lastCommandTime (state (this w))
            >? debounceDelay (config (this w))))).
Proof. reflexivity. Qed.

Lemma gate_reflect command w :
  negb (String.eqb command (lastCommand (state (this w))))
  || (nowOf w - lastCommandTime (state (this w))
      >? debounceDelay (config (this w))) = true
  <-> debounceGate command (nowOf w) w.
Proof.
  unfold debounceGate. rewrite orb_true_iff, negb_true_iff.
  rewrite String.eqb_neq, Z.gtb_ltb, Z.ltb_lt, Z.gt_lt_iff. reflexivity.
Qed.

Lemma processCommand_matched v word command w :
  findMatchingCommand v word = Some command ->
  processCommand v word w =
  if negb (String.eqb command (lastCommand (state (this w))))
     || (nowOf w - lastCommandTime (state (this w))
         >? debounceDelay (config (this w)))
  then executeCommand v command (ticked w)
  else (logged (ConsoleLog (MsgDebounced command)) (ticked w), inr tt).
Proof.
  intros H. unfold processCommand. rewrite H, bind_run, canExecuteCommand_run.
  destruct (_ || _); reflexivity.
Qed.

Lemma processCommand_unmatched v word w :
  findMatchingCommand v word = None ->
  processCommand v word w =
  match v with
  | VariantA => (w, inr tt)
  | VariantB => (logged (ConsoleLog (MsgUnknownCommand word)) w, inr tt)
  end.
Proof. intros H. unfold processCommand. rewrite H. destruct v; reflexivity. Qed.

(** An action that throws has done nothing but ask the host. *)
Lemma action_throws v command c w w' e :
  lookupCommand command (commands v) = Some c ->
  action c w = (w', inl e) ->
  w' = ticked w /\ e = DOMException /\ nextThrows w = true.
Proof.
  intros H Ha. destruct v; simpl in H;
    repeat match type of H with
    | (if ?b then _ else _) = _ =>
        destruct b;
        [ injection H as <-; simpl in Ha;
          try (rewrite bind_run in Ha; simpl in Ha);
          try (rewrite smoothScroll_run, window_scrollTo_run in Ha;
               destruct (nextThrows w); inversion Ha; auto) |]
    end; try discriminate.
  destruct (total_stopRecognition w) as [a Hs].
  rewrite Ha in Hs. discriminate.
Qed.

Lemma executeCommand_failure v command c w w' e :
  lookupCommand command (commands v) = Some c ->
  action c w = (w', inl e) ->
  executeCommand v command w =
  (logged (ConsoleError (MsgExecuteFailed command e)) w', inr tt).
Proof.
  intros H Ha. unfold executeCommand. rewrite H.
  erewrite tryCatch_throws; [reflexivity|].
  erewrite bind_throws; [reflexivity | exact Ha].
Qed.

Lemma executeCommand_success v command c w w' :
  lookupCommand command (commands v) = Some c ->
  action c w = (w', inr tt) ->
  exists w'',
    executeCommand v command w = (w'', inr tt) /\
    state (this w'') =
      {| isListening := isListening (state (this w'));
         lastCommand := command;
         lastCommandTime := nowOf w' |} /\
    config (this w'') = config (this w') /\
    recognition (this w'') = recognition (this w') /\
    idleTimeout (this w'') = idleTimeout (this w').
Proof.
  intros H Ha. unfold executeCommand. rewrite H.
  destruct v; eexists; (split; [erewrite tryCatch_returns; [reflexivity|];
    erewrite bind_returns by exact Ha; reflexivity |]); simpl; auto.
Qed.

Lemma executeCommand_total v command : total (executeCommand v command).
Proof. unfold executeCommand, console_error. total_go. Qed.

Lemma processCommand_total v word : total (processCommand v word).
Proof.
  intros w. destruct (findMatchingCommand v word) as [command|] eqn:H.
  - rewrite (processCommand_matched _ _ _ _ H).
    destruct (_ || _); [apply executeCommand_total | eexists; reflexivity].
  - rewrite (processCommand_unmatched _ _ _ H).
    destruct v; eexists; reflexivity.
Qed.

(** * Timers *)

Lemma timersGrow_refl w : timersGrow w w.
Proof. split; [lia | auto]. Qed.

Lemma timersGrow_trans a b c : timersGrow a b -> timersGrow b c -> timersGrow a c.
Proof.
  intros [Hab1 Hab2] [Hbc1 Hbc2]. split; [lia|].
  intros id cb Hid Hc. apply Hab2; [assumption|]. apply Hbc2; [lia | assumption].
Qed.

Lemma timersGrow_this f : respects timersGrow (modify (with_this f)).
Proof. intros w. split; simpl; [lia | auto]. Qed.

Lemma timersGrow_tick : respects timersGrow (modify (with_browser next_tick)).
Proof. intros w. split; simpl; [lia | auto]. Qed.

Lemma timersGrow_handle : respects timersGrow (modify (with_browser next_handle)).
Proof. intros w. split; simpl; [lia | auto]. Qed.

Lemma timersGrow_emit e : respects timersGrow (effect e).
Proof. intros w. split; simpl; [lia | auto]. Qed.

Lemma timersGrow_add cb : respects timersGrow (modify (with_browser (add_timer cb))).
Proof.
  intros w. split; simpl; [lia|].
  intros id c Hid Hc. rewrite lookup_insert_ne in Hc by lia. exact Hc.
Qed.

Lemma timersGrow_drop id : respects timersGrow (modify (with_browser (drop_timer id))).
Proof.
  intros w. split; simpl; [lia|].
  intros id' c Hid Hc. apply lookup_delete_Some in Hc. tauto.
Qed.

#[local] Hint Resolve timersGrow_this timersGrow_tick timersGrow_handle
  timersGrow_emit timersGrow_add timersGrow_drop : respects_db.

Ltac grow_go := respects_go timersGrow_refl timersGrow_trans.

Lemma timersGrow_stopRecognition : respects timersGrow stopRecognition.
Proof.
  unfold stopRecognition, clearIdleTimeout, updateUIState, clearTimeout,
    recognition_stop, console_log.
  grow_go.
Qed.
#[local] Hint Resolve timersGrow_stopRecognition : respects_db.

Lemma timersGrow_action v command c :
  lookupCommand command (commands v) = Some c -> respects timersGrow (action c).
Proof.
  intros H. destruct v; simpl in H;
    repeat match type of H with
    | (if ?b then _ else _) = _ =>
        destruct b;
        [ injection H as <-; simpl;
          unfold smoothScroll, window_scrollTo, host_throws; grow_go |]
    end; discriminate.
Qed.

Lemma timersGrow_executeCommand v command :
  respects timersGrow (executeCommand v command).
Proof.
  unfold executeCommand, console_log, console_error, showCommandFeedback,
    setTimeout, Date_now.
  apply (respects_tryCatch _ timersGrow_trans); [| intros ?; grow_go].
  apply (respects_bind _ timersGrow_trans); [| intros ?; grow_go].
  destruct (lookupCommand command (commands v)) eqn:H.
  - eapply timersGrow_action; eassumption.
  - grow_go.
Qed.
#[local] Hint Resolve timersGrow_executeCommand : respects_db.

Lemma timersGrow_processCommand v word :
  respects timersGrow (processCommand v word).
Proof.
  unfold processCommand, canExecuteCommand, console_log, Date_now. grow_go.
Qed.
#[local] Hint Resolve timersGrow_processCommand : respects_db.

(** ** The invariant *)

Lemma keepsInv_refl w : keepsInv w w.
Proof. intros H. exact H. Qed.

Lemma keepsInv_trans a b c : keepsInv a b -> keepsInv b c -> keepsInv a c.
Proof. unfold keepsInv. auto. Qed.

Lemma TimerInv_browser_frame w w' :
  this w' = this w ->
  timers (browser w') = timers (browser w) ->
  nextTimer (browser w') = nextTimer (browser w) ->
  TimerInv w -> TimerInv w'.
Proof.
  intros Ht Hm Hn [H1 H2 H3 H4].
  split; unfold idlePending; rewrite ?Ht, ?Hm, ?Hn; assumption.
Qed.

Lemma TimerInv_this_frame w f :
  idleTimeout (f (this w)) = idleTimeout (this w) ->
  TimerInv w -> TimerInv (with_this f w).
Proof.
  intros Hi [H1 H2 H3 H4].
  split; unfold idlePending; simpl; rewrite ?Hi; assumption.
Qed.

Lemma keepsInv_tick : respects keepsInv (modify (with_browser next_tick)).
Proof. intros w H. revert H. apply TimerInv_browser_frame; reflexivity. Qed.

Lemma keepsInv_handle : respects keepsInv (modify (with_browser next_handle)).
Proof. intros w H. revert H. apply TimerInv_browser_frame; reflexivity. Qed.

Lemma keepsInv_emit e : respects keepsInv (effect e).
Proof. intros w H. revert H. apply TimerInv_browser_frame; reflexivity. Qed.

Lemma keepsInv_state f :
  respects keepsInv (modify (with_this (fun c => set_state (f c) c))).
Proof. intros w H. revert H. apply TimerInv_this_frame. reflexivity. Qed.

Lemma keepsInv_recognition r :
  respects keepsInv (modify (with_this (set_recognition r))).
Proof. intros w H. revert H. apply TimerInv_this_frame. reflexivity. Qed.

Lemma keepsInv_drop id : respects keepsInv (modify (with_browser (drop_timer id))).
Proof.
  intros w [H1 H2 H3 H4]. split; unfold idlePending; simpl.
  - intros id' H. apply lookup_delete_Some in H. apply H1, H.
  - intros id' cb H. apply lookup_delete_Some in H. eapply H2, H.
  - assumption.
  - assumption.
Qed.

Lemma keepsInv_add_feedback :
  respects keepsInv (modify (with_browser (add_timer FeedbackCallback))).
Proof.
  intros w [H1 H2 H3 H4]. split; unfold idlePending; simpl.
  - intros id H. apply lookup_insert_Some in H as [[_ H] | [_ H]].
    + discriminate.
    + apply H1, H.
  - intros id cb H. apply lookup_insert_Some in H as [[<- _] | [_ H]].
    + lia.
    + apply H2 in H. lia.
  - lia.
  - assumption.
Qed.

#[local] Hint Resolve keepsInv_tick keepsInv_handle keepsInv_emit
  keepsInv_state keepsInv_recognition keepsInv_drop keepsInv_add_feedback
  : respects_db.

Ltac inv_go := respects_go keepsInv_refl keepsInv_trans.

Lemma clearIdleTimeout_run w :
  clearIdleTimeout w =
  match idleTimeout (this w) with
  | Some (S n) =>
      (with_this (set_idleTimeout None)
         (logged (ClearTimeout (S n)) (with_browser (drop_timer (S n)) w)),
       inr tt)
  | _ => (w, inr tt)
  end.
Proof.
  unfold clearIdleTimeout. rewrite bind_run. simpl.
  destruct (idleTimeout (this w)) as [[|n]|]; reflexivity.
Qed.

(** After [clearIdleTimeout] no idle timer is pending. *)
Lemma clearIdleTimeout_inv w :
  TimerInv w ->
  let w' := world_after (clearIdleTimeout w) in
  TimerInv w' /\
  idleTimeout (this w') = None /\
  (forall id, ~ idlePending w' id) /\
  nextTimer (browser w') = nextTimer (browser w).
Proof.
  intros [H1 H2 H3 H4]. rewrite clearIdleTimeout_run.
  destruct (idleTimeout (this w)) as [[|n]|] eqn:Hi; simpl.
  - specialize (H4 _ eq_refl). lia.
  - assert (Hno : forall id,
               delete (S n) (timers (browser w)) !! id = Some IdleCallback ->
               False).
    { intros id H. apply lookup_delete_Some in H as [Hne H].
      apply H1 in H. congruence. }
    split; [constructor; unfold idlePending; simpl |
            split; [reflexivity | split; [exact Hno | reflexivity]]].
    + intros id H. destruct (Hno id H).
    + intros id cb H. apply lookup_delete_Some in H as [Hne H]. eapply H2, H.
    + exact H3.
    + intros id H. discriminate.
  - split; [constructor; intros; rewrite ?Hi in *; eauto |
            split; [exact Hi | split; [| reflexivity]]].
    intros id H. apply H1 in H. congruence.
Qed.

Lemma keepsInv_clearIdleTimeout : respects keepsInv clearIdleTimeout.
Proof. intros w H. apply (clearIdleTimeout_inv w H). Qed.
#[local] Hint Resolve keepsInv_clearIdleTimeout : respects_db.

Lemma resetIdleTimeout_run w :
  resetIdleTimeout w =
  let w1 := world_after (clearIdleTimeout w) in
  (with_this (set_idleTimeout (Some (nextTimer (browser w1))))
     (logged (SetTimeout (nextTimer (browser w1)) IdleCallback
                (idleDuration (config (this w1))))
        (with_browser (add_timer IdleCallback) w1)),
   inr tt).
Proof.
  unfold resetIdleTimeout. rewrite bind_run, clearIdleTimeout_run.
  destruct (idleTimeout (this w)) as [[|n]|]; reflexivity.
Qed.

(** After [resetIdleTimeout] the pending idle timer is the new one. *)
Lemma resetIdleTimeout_inv w :
  TimerInv w ->
  let w' := world_after (resetIdleTimeout w) in
  TimerInv w' /\
  idleTimeout (this w') = Some (nextTimer (browser w)) /\
  nextTimer (browser w') = S (nextTimer (browser w)) /\
  (forall id, idlePending w' id <-> id = nextTimer (browser w)).
Proof.
  intros H. rewrite resetIdleTimeout_run.
  destruct (clearIdleTimeout_inv w H) as ([H1 H2 H3 H4] & Hnone & Hno & Hnext).
  cbv zeta. set (w1 := world_after (clearIdleTimeout w)) in *.
  unfold world_after at 1 2 3 4. simpl. rewrite Hnext.
  assert (Hidle : forall id,
             <[nextTimer (browser w) := IdleCallback]> (timers (browser w1)) !! id
             = Some IdleCallback <-> id = nextTimer (browser w)).
  { intros id. rewrite lookup_insert_Some. split.
    - intros [[<- _] | [_ Hp]]; [reflexivity | exfalso; exact (Hno id Hp)].
    - intros ->. left. split; reflexivity. }
  split; [constructor; unfold idlePending; simpl; rewrite ?Hnext |
          split; [reflexivity | split; [reflexivity |]]].
  5: { intros id. unfold idlePending. simpl. rewrite Hnext. apply Hidle. }
  - intros id Hp. apply Hidle in Hp. congruence.
  - intros id cb Hp. apply lookup_insert_Some in Hp as [[<- _] | [_ Hp]]; [lia|].
    apply H2 in Hp. lia.
  - lia.
  - intros id Hs. injection Hs as <-. lia.
Qed.

Lemma keepsInv_resetIdleTimeout : respects keepsInv resetIdleTimeout.
Proof. intros w H. apply (resetIdleTimeout_inv w H). Qed.
#[local] Hint Resolve keepsInv_resetIdleTimeout : respects_db.

Lemma keepsInv_stopRecognition : respects keepsInv stopRecognition.
Proof.
  unfold stopRecognition, updateUIState, recognition_stop, console_log.
  inv_go.
Qed.
#[local] Hint Resolve keepsInv_stopRecognition : respects_db.

Lemma keepsInv_action v command c :
  lookupCommand command (commands v) = Some c -> respects keepsInv (action c).
Proof.
  intros H. destruct v; simpl in H;
    repeat match type of H with
    | (if ?b then _ else _) = _ =>
        destruct b;
        [ injection H as <-; simpl;
          unfold smoothScroll, window_scrollTo, host_throws; inv_go |]
    end; discriminate.
Qed.

Lemma keepsInv_executeCommand v command :
  respects keepsInv (executeCommand v command).
Proof.
  unfold executeCommand, console_log, console_error, showCommandFeedback,
    setTimeout, Date_now.
  apply (respects_tryCatch _ keepsInv_trans); [| intros ?; inv_go].
  apply (respects_bind _ keepsInv_trans); [| intros ?; inv_go].
  destruct (lookupCommand command (commands v)) eqn:H.
  - eapply keepsInv_action; eassumption.
  - inv_go.
Qed.
#[local] Hint Resolve keepsInv_executeCommand : respects_db.

Lemma keepsInv_processCommand v word :
  respects keepsInv (processCommand v word).
Proof.
  unfold processCommand, canExecuteCommand, console_log, Date_now. inv_go.
Qed.
#[local] Hint Resolve keepsInv_processCommand : respects_db.

Lemma keepsInv_handleRecognitionError v error :
  respects keepsInv (handleRecognitionError v error).
Proof.
  unfold handleRecognitionError, console_error, console_log, alert. inv_go.
Qed.
#[local] Hint Resolve keepsInv_handleRecognitionError : respects_db.

Lemma keepsInv_handler v e : respects keepsInv (handler v e).
Proof.
  destruct e; simpl.
  - unfold toggleRecognition, startRecognition, showCommandsList,
      new_SpeechRecognition, recognition_start, updateUIState, window_confirm,
      host_throws, console_log, console_error, alert.
    inv_go.
  - unfold handleRecognitionResult, console_log. inv_go.
  - inv_go.
  - unfold handleRecognitionEnd, recognition_start, host_throws, console_error.
    inv_go.
  - unfold fireTimer, console_log. inv_go.
  - unfold destroy. inv_go.
  - inv_go.
Qed.

Lemma TimerInv_initial arg h : TimerInv (initialWorld arg h).
Proof.
  constructor; unfold idlePending; simpl.
  - intros id H. rewrite lookup_empty in H. discriminate.
  - intros id cb H. rewrite lookup_empty in H. discriminate.
  - lia.
  - intros id H. discriminate.
Qed.

Lemma TimerInv_run v events w : TimerInv w -> TimerInv (run v w events).
Proof.
  revert w. induction events as [|e events IH]; intros w H; simpl.
  - exact H.
  - apply IH. apply (keepsInv_handler v e w H).
Qed.

Lemma run_reachable v arg h events :
  reachable v arg h (run v (initialWorld arg h) events).
Proof.
  generalize (reachable_init v arg h).
  generalize (initialWorld arg h) as w.
  induction events as [|e events IH]; intros w H; simpl.
  - exact H.
  - apply IH. constructor. exact H.
Qed.

Lemma TimerInv_reachable v arg h w : reachable v arg h w -> TimerInv w.
Proof.
  induction 1 as [|w e _ IH].
  - apply TimerInv_initial.
  - apply (keepsInv_handler v e w IH).
Qed.

Lemma TimerInv_unique w i j :
  TimerInv w -> idlePending w i -> idlePending w j -> i = j.
Proof.
  intros [H1 _ _ _] Hi Hj. apply H1 in Hi, Hj. congruence.
Qed.

(** What [stopRecognition] leaves behind. *)
Lemma stopRecognition_state w :
  let w' := world_after (stopRecognition w) in
  isListening (state (this w')) = false /\
  recognition (this w') = None /\
  lastCommand (state (this w')) = lastCommand (state (this w)) /\
  lastCommandTime (state (this w')) = lastCommandTime (state (this w)).
Proof.
  unfold stopRecognition, clearIdleTimeout, updateUIState, console_log,
    recognition_stop, clearTimeout, effect, bind, get, modify, ret, world_after.
  simpl.
  destruct (recognition (this w)) as [h|] eqn:Hr; simpl;
    destruct (idleTimeout (this w)) as [[|n]|]; simpl; auto.
Qed.

Lemma stopRecognition_timers w :
  TimerInv w ->
  let w' := world_after (stopRecognition w) in
  idleTimeout (this w') = None /\ forall id, ~ idlePending w' id.
Proof.
  intros H. unfold stopRecognition. rewrite !bind_run. simpl.
  assert (Hgen : forall w0, TimerInv w0 ->
    let w' := world_after
      ((clearIdleTimeout ;; updateUIState false ;; console_log MsgStopped) w0) in
    idleTimeout (this w') = None /\ forall id, ~ idlePending w' id).
  { intros w0 H0. destruct (clearIdleTimeout_inv w0 H0) as (_ & Hn & Hno & _).
    rewrite bind_run. revert Hn Hno. rewrite clearIdleTimeout_run.
    destruct (idleTimeout (this w0)) as [[|n]|]; simpl; auto. }
  destruct (recognition (this w)) as [h|]; simpl.
  - apply Hgen.
    apply (keepsInv_recognition None), (keepsInv_emit (RecognitionStop h)), H.
  - apply Hgen, H.
Qed.

(** * Cleaning and matching *)

Lemma find_first {A} (f : A -> bool) (l : list A) (x : A) :
  List.find f l = Some x <->
  exists before after,
    l = before ++ x :: after /\ f x = true /\
    Forall (fun y => f y = false) before.
Proof.
  induction l as [|a l IH]; simpl.
  - split; [discriminate|]. intros (before & after & H & _).
    destruct before; discriminate.
  - destruct (f a) eqn:Ha.
    + split.
      * intros [= <-]. exists [], l. auto.
      * intros ([|b before] & after & H & Hx & Hb).
        -- injection H as -> _. reflexivity.
        -- injection H as -> _. inversion Hb; congruence.
    + rewrite IH. split.
      * intros (before & after & -> & Hx & Hb).
        exists (a :: before), after. auto.
      * intros ([|b before] & after & H & Hx & Hb).
        -- injection H as -> _. congruence.
        -- injection H as -> ->. inversion Hb; subst. eauto.
Qed.

Lemma find_nothing {A} (f : A -> bool) (l : list A) :
  List.find f l = None <-> Forall (fun y => f y = false) l.
Proof.
  induction l as [|a l IH]; simpl.
  - split; auto.
  - destruct (f a) eqn:Ha.
    + split; [discriminate|]. intros H. inversion H; congruence.
    + rewrite IH. split; [auto|]. intros H. inversion H; assumption.
Qed.

Lemma filter_all_false {A} (f : A -> bool) (l : list A) :
  Forall (fun y => f y = false) l -> List.filter f l = [].
Proof.
  induction 1 as [|a l Ha _ IH]; simpl; [reflexivity|].
  rewrite Ha. exact IH.
Qed.

Lemma filter_all_true {A} (f : A -> bool) (l : list A) :
  Forall (fun y => f y = true) l -> List.filter f l = l.
Proof.
  induction 1 as [|a l Ha _ IH]; simpl; [reflexivity|].
  rewrite Ha, IH. reflexivity.
Qed.

Lemma filter_agree {A} (f g : A -> bool) (l : list A) :
  Forall (fun y => f y = g y) l -> List.filter f l = List.filter g l.
Proof.
  induction 1 as [|a l Ha _ IH]; simpl; [reflexivity|].
  rewrite Ha, IH. reflexivity.
Qed.

Lemma filter_filter {A} (f g : A -> bool) (l : list A) :
  List.filter f (List.filter g l) = List.filter (fun y => g y && f y) l.
Proof.
  induction l as [|a l IH]; simpl; [reflexivity|].
  destruct (g a); simpl; [destruct (f a)|]; rewrite IH; reflexivity.
Qed.

Lemma filter_swap {A} (f g : A -> bool) (l : list A) :
  List.filter f (List.filter g l) = List.filter g (List.filter f l).
Proof.
  rewrite !filter_filter. apply filter_agree, Forall_forall.
  intros y _. apply andb_comm.
Qed.

(** The specification's cleaning keeps the words that are not noise. *)
Lemma cleanTranscript_spec_words v t :
  Tokens.cleanTranscript_spec v t =
  List.filter (fun word => negb (isNoise v word))
    (Str.words_from (Str.toLowerCase t)).
Proof.
  unfold Tokens.cleanTranscript_spec.
  rewrite filter_swap, StrFacts.split_trim, List.filter_app.
  rewrite (filter_all_true _ (Str.words_from _)).
  - destruct (Str.isEmpty (Str.trim _)); simpl; rewrite app_nil_r; reflexivity.
  - eapply List.Forall_impl; [| apply StrFacts.words_from_nonempty].
    intros tok H. simpl in H. rewrite H. reflexivity.
Qed.

Lemma cleanTranscript_A t :
  cleanTranscript VariantA t = Tokens.cleanTranscript_spec VariantA t.
Proof.
  unfold cleanTranscript, Tokens.cleanTranscript_spec.
  rewrite filter_filter. apply filter_agree, Forall_forall.
  intros y _. apply andb_comm.
Qed.

Lemma cleanTranscript_B t :
  cleanTranscript VariantB t =
  if Str.isEmpty (Str.trim (Str.toLowerCase t)) then [EmptyString]
  else Tokens.cleanTranscript_spec VariantB t.
Proof.
  rewrite cleanTranscript_spec_words. unfold cleanTranscript.
  rewrite StrFacts.split_trim, List.filter_app.
  destruct (Str.isEmpty (Str.trim _)) eqn:He.
  - rewrite (StrFacts.trim_empty_no_words _ He). reflexivity.
  - simpl. apply app_nil_r.
Qed.

Lemma onlyNoiseEntries_no_word v t :
  Tokens.onlyNoiseEntries v t -> Tokens.cleanTranscript_spec v t = [].
Proof.
  intros H. rewrite cleanTranscript_spec_words. apply filter_all_false.
  eapply List.Forall_impl; [| exact H].
  intros tok Htok. simpl in *. unfold isNoise.
  rewrite bool_decide_eq_true_2 by assumption. reflexivity.
Qed.

Lemma empty_word_unmatched v : findMatchingCommand v EmptyString = None.
Proof. destruct v; vm_compute; reflexivity. Qed.

(** The words of the entries of the noise-word set: noise words, or the
    two halves of the entry of two words. *)
Lemma noise_entry_words v entry word :
  entry ∈ noiseWords v -> In word (Str.words_from entry) ->
  isNoise v word = true \/ word = "you" \/ word = "know".
Proof.
  intros He Hw. unfold noiseWords in He.
  destruct v; rewrite elem_of_list_to_set in He;
    repeat (apply elem_of_cons in He as [-> | He]);
    try (apply elem_of_nil in He; destruct He);
    vm_compute in Hw; intuition subst; auto; left; vm_compute; reflexivity.
Qed.

Lemma cleanTranscript_tokens v t word :
  In word (cleanTranscript v t) ->
  isNoise v word = false /\
  (In word (Str.words_from (Str.toLowerCase t)) \/ word = EmptyString).
Proof.
  unfold cleanTranscript. rewrite StrFacts.split_trim.
  intros H.
  assert (Hin : In word
                  (Str.words_from (Str.toLowerCase t)
                   ++ (if Str.isEmpty (Str.trim (Str.toLowerCase t))
                       then [EmptyString] else []))
                /\ negb (isNoise v word) = true).
  { destruct v; apply filter_In in H as [Hin Hk]; split; auto.
    apply andb_true_iff in Hk. tauto. }
  destruct Hin as [Hin Hk]. apply negb_true_iff in Hk. split; [exact Hk|].
  apply in_app_or in Hin as [Hin | Hin]; [left; exact Hin|].
  destruct (Str.isEmpty _); simpl in Hin; intuition.
Qed.

Lemma onlyNoise_unmatched v t :
  Tokens.onlyNoise v t ->
  Forall (fun word => findMatchingCommand v word = None) (cleanTranscript v t).
Proof.
  intros Hn. apply Forall_forall. intros word Hw.
  apply list_elem_of_In in Hw.
  apply cleanTranscript_tokens in Hw as [Hk [Hw | ->]].
  - unfold Tokens.onlyNoise in Hn. rewrite List.Forall_forall in Hn.
    destruct (Hn word Hw) as (entry & He & Hin).
    destruct (noise_entry_words v entry word He Hin) as [H | [-> | ->]].
    + congruence.
    + destruct v; vm_compute; reflexivity.
    + destruct v; vm_compute; reflexivity.
  - apply empty_word_unmatched.
Qed.

(** Tokens without a match run nothing: variant B logs each of them. *)
Lemma forEach_unmatched v words w :
  Forall (fun word => findMatchingCommand v word = None) words ->
  forEach (processCommand v) words w
  = (match v with
     | VariantA => w
     | VariantB =>
         fold_left
           (fun w word => logged (ConsoleLog (MsgUnknownCommand word)) w)
           words w
     end, inr tt).
Proof.
  intros H. revert w. induction H as [|word words Hw _ IH]; intros w.
  - destruct v; reflexivity.
  - simpl forEach. rewrite bind_run, (processCommand_unmatched _ _ _ Hw).
    destruct v; rewrite IH; reflexivity.
Qed.

(** * The search of [test] finds exactly the occurrences *)

Module RegExpFacts.
Import RegExp Occurs.

Lemma append_cons c s t : String c s +:+ t = String c (s +:+ t).
Proof. reflexivity. Qed.

Lemma sameText_nil mid : sameText EmptyString mid = true <-> mid = EmptyString.
Proof. destruct mid; simpl; split; congruence. Qed.

Lemma matchLiteral_spec lit prev s last rest :
  matchLiteral lit prev s = Some (last, rest) <->
  exists mid,
    s = mid +:+ rest /\ sameText lit mid = true /\ last = lastChar prev mid.
Proof.
  revert prev s. induction lit as [|l lit IH]; intros prev s.
  - simpl matchLiteral. split.
    + intros [= <- <-]. exists EmptyString. auto.
    + intros (mid & -> & Hm & ->). apply sameText_nil in Hm. subst mid.
      reflexivity.
  - destruct s as [|c s].
    + simpl. split; [discriminate|].
      intros ([|c mid] & Hs & Hm & _); simpl in *; discriminate.
    + simpl matchLiteral. destruct (sameChar l c) eqn:Hc.
      * rewrite IH. split.
        -- intros (mid & -> & Hm & ->). exists (String c mid).
           simpl. rewrite Hc. auto.
        -- intros ([|c' mid] & Hs & Hm & ->); simpl in Hm; [discriminate|].
           rewrite append_cons in Hs. injection Hs as <- ->.
           apply andb_true_iff in Hm as [_ Hm]. exists mid. auto.
      * split; [discriminate|].
        intros ([|c' mid] & Hs & Hm & _); simpl in Hm; [discriminate|].
        rewrite append_cons in Hs. injection Hs as <- _.
        rewrite Hc in Hm. discriminate.
Qed.

Lemma matchAt_spec lit prev s :
  matchAt lit prev s = true <->
  exists mid post,
    s = mid +:+ post /\ matchesAt lit prev EmptyString mid post.
Proof.
  unfold matchAt, matchesAt. simpl lastChar. split.
  - intros H. apply andb_true_iff in H as [Hb H].
    destruct (matchLiteral lit prev s) as [[last rest]|] eqn:Hm;
      [|discriminate].
    apply matchLiteral_spec in Hm as (mid & -> & Hs & ->).
    exists mid, rest. auto.
  - intros (mid & post & -> & Hs & Hb1 & Hb2).
    rewrite Hb1. simpl.
    assert (Hm : matchLiteral lit prev (mid +:+ post)
                 = Some (lastChar prev mid, post)).
    { apply matchLiteral_spec. exists mid. auto. }
    rewrite Hm. exact Hb2.
Qed.

Lemma search_spec lit prev s :
  search lit prev s = true <->
  exists pre mid post,
    s = pre +:+ mid +:+ post /\ matchesAt lit prev pre mid post.
Proof.
  revert prev. induction s as [|c s IH]; intros prev.
  - simpl search. rewrite orb_false_r, matchAt_spec. split.
    + intros (mid & post & Hs & H). exists EmptyString, mid, post. auto.
    + intros ([|c pre] & mid & post & Hs & H); [| discriminate].
      exists mid, post. split; [exact Hs | exact H].
  - simpl search. rewrite orb_true_iff, matchAt_spec, IH. split.
    + intros [(mid & post & Hs & H) | (pre & mid & post & Hs & H)].
      * exists EmptyString, mid, post. auto.
      * exists (String c pre), mid, post. rewrite append_cons, <- Hs. auto.
    + intros ([|c' pre] & mid & post & Hs & H).
      * left. exists mid, post. split; [exact Hs | exact H].
      * right. rewrite append_cons in Hs. injection Hs as <- ->.
        exists pre, mid, post. auto.
Qed.

Lemma test_spec lit s : test lit s = true <-> occurs lit s.
Proof. apply search_spec. Qed.

End RegExpFacts.

(** * The search of [test] against the wording of a match *)

Lemma isWord_agrees c : Char.isWordChar c = Wording.isWord c.
Proof. destruct c as [[] [] [] [] [] [] [] []]; reflexivity. Qed.

(** A small letter of the pattern meets itself and its capital, and
    nothing else. *)
Lemma sameChar_small l c :
  Wording.member l Wording.smalls = true ->
  RegExp.sameChar l c = Ascii.eqb (Wording.small c) l.
Proof.
  intros H.
  destruct l as [[] [] [] [] [] [] [] []]; try discriminate H; clear H;
    destruct c as [[] [] [] [] [] [] [] []]; reflexivity.
Qed.

Lemma small_letter_is_word c :
  Wording.member (Wording.small c) Wording.smalls = true ->
  Wording.isWord c = true.
Proof. destruct c as [[] [] [] [] [] [] [] []]; intros H; try discriminate H; reflexivity. Qed.

Lemma sameText_small name mid :
  Wording.allSmall name = true ->
  Occurs.sameText name mid = true <-> Wording.smallText mid = name.
Proof.
  revert mid. induction name as [|l name IH]; intros mid Hn.
  - destruct mid; simpl; split; congruence.
  - simpl in Hn. apply andb_true_iff in Hn as [Hl Hn].
    destruct mid as [|c mid]; simpl; [split; discriminate|].
    rewrite andb_true_iff, (sameChar_small l c Hl), Ascii.eqb_eq, (IH mid Hn).
    split.
    + intros [-> ->]. reflexivity.
    + intros [= -> ->]. split; reflexivity.
Qed.

Lemma lastChar_final prev s :
  Occurs.lastChar prev s
  = match Wording.final s with Some c => Some c | None => prev end.
Proof.
  revert prev. induction s as [|c s IH]; intros prev; [reflexivity|].
  simpl Occurs.lastChar. rewrite IH.
  destruct s as [|c' s']; [reflexivity|].
  change (Wording.final (String c (String c' s')))
    with (Wording.final (String c' s')).
  destruct (Wording.final (String c' s')) eqn:E; [reflexivity|].
  exfalso. clear -E. revert c' E.
  induction s' as [|d s' IH]; intros c' E; [discriminate|].
  apply (IH d). exact E.
Qed.

Lemma free_boundary a :
  Wording.free a = negb (RegExp.isWordAt a).
Proof. destruct a as [c|]; simpl; [rewrite isWord_agrees|]; reflexivity. Qed.

(** The last character of a text of small or capital letters is a word
    character. *)
Lemma final_of_name name mid :
  Wording.isName name = true ->
  Wording.smallText mid = name ->
  exists c0 mid' cl,
    mid = String c0 mid' /\ Wording.isWord c0 = true /\
    Wording.final mid = Some cl /\ Wording.isWord cl = true.
Proof.
  unfold Wording.isName. intros Hn Hm. apply andb_true_iff in Hn as [Hne Hs].
  subst name. destruct mid as [|c0 mid']; [discriminate|].
  simpl in Hs. apply andb_true_iff in Hs as [H0 Hs].
  exists c0, mid'. 
  assert (Hlast : forall c s,
             Wording.member (Wording.small c) Wording.smalls = true ->
             Wording.allSmall (Wording.smallText s) = true ->
             exists cl, Wording.final (String c s) = Some cl /\
                        Wording.isWord cl = true).
  { intros c s. revert c. induction s as [|d s IH]; intros c Hc Hall.
    - exists c. split; [reflexivity | apply small_letter_is_word, Hc].
    - simpl in Hall. apply andb_true_iff in Hall as [Hd Hall].
      destruct (IH d Hd Hall) as (cl & Hf & Hw). exists cl. split; assumption. }
  destruct (Hlast c0 mid' H0 Hs) as (cl & Hf & Hw).
  exists cl. split; [reflexivity|]. split; [apply small_letter_is_word, H0|].
  split; assumption.
Qed.

Lemma test_wording name token :
  Wording.isName name = true ->
  RegExp.test name token = true <-> Wording.occursAsWord name token.
Proof.
  intros Hn. rewrite RegExpFacts.test_spec.
  assert (Hs : Wording.allSmall name = true).
  { unfold Wording.isName in Hn. apply andb_true_iff in Hn. tauto. }
  unfold Occurs.occurs, Occurs.matchesAt, Wording.occursAsWord.
  split.
  - intros (pre & mid & post & -> & Ht & Hb1 & Hb2).
    apply (sameText_small name mid Hs) in Ht.
    destruct (final_of_name name mid Hn Ht)
      as (c0 & mid' & cl & -> & Hw0 & Hf & Hwl).
    exists pre, (String c0 mid'), post. split; [reflexivity|].
    split; [exact Ht|].
    rewrite lastChar_final in Hb2. rewrite Hf in Hb2.
    rewrite lastChar_final in Hb1.
    rewrite !free_boundary.
    unfold RegExp.boundary in *. simpl in Hb1, Hb2.
    rewrite isWord_agrees, Hw0 in Hb1. rewrite isWord_agrees, Hwl in Hb2.
    split.
    + destruct (Wording.final pre); simpl in *;
        [destruct (Char.isWordChar a); [discriminate | reflexivity]
        | reflexivity].
    + destruct post as [|p post']; simpl in *; [reflexivity|].
      destruct (Char.isWordChar p); [discriminate | reflexivity].
  - intros (pre & mid & post & -> & Ht & Hf1 & Hf2).
    destruct (final_of_name name mid Hn Ht)
      as (c0 & mid' & cl & -> & Hw0 & Hf & Hwl).
    exists pre, (String c0 mid'), post. split; [reflexivity|].
    split; [apply (sameText_small name _ Hs), Ht|].
    rewrite !lastChar_final, Hf.
    rewrite free_boundary in Hf1, Hf2.
    unfold RegExp.boundary. simpl.
    rewrite isWord_agrees, Hw0, isWord_agrees, Hwl.
    split.
    + destruct (Wording.final pre); simpl in *;
        [apply negb_true_iff in Hf1; rewrite Hf1|]; reflexivity.
    + destruct post as [|p post']; simpl in *; [reflexivity|].
      apply negb_true_iff in Hf2. rewrite Hf2. reflexivity.
Qed.

Lemma commandNames_are_names v c :
  In c (commandNames v) -> Wording.isName c = true.
Proof.
  intros H. destruct v; vm_compute in H; intuition subst; reflexivity.
Qed.

(** * The scenarios of the specification, evaluated *)

Example scenario_please_scroll_down :
  let w := run VariantA calmWorld [Click; utterance "please scroll down now"] in
  scrolls w = [400%Q] /\ lastCommand (state (this w)) = "down".
Proof. split; reflexivity. Qed.

Example scenario_up_up_within_delay :
  let w := run VariantB (initialWorld noArg quickHost)
               [Click; utterance "up"; utterance "up"] in
  scrolls w = [200%Q] /\
  last (output (browser w)) = Some (ConsoleLog (MsgDebounced "up")).
Proof. split; reflexivity. Qed.

Example scenario_two_commands_one_utterance :
  let w := run VariantA (initialWorld noArg quickHost)
               [Click; utterance "Go UP, then jump"] in
  List.map Qred (scrolls w) = [200%Q; 600%Q] /\
  lastCommand (state (this w)) = "jump".
Proof. split; reflexivity. Qed.

Example scenario_not_allowed :
  let w := run VariantB calmWorld [Click; OnError (Some "not-allowed")] in
  isListening (state (this w)) = false /\
  In (Alert DlgAccessDenied) (output (browser w)).
Proof. split; [reflexivity | vm_compute; tauto]. Qed.

Example scenario_unexpected_end :
  let w := run VariantA calmWorld [Click; OnEnd] in
  isListening (state (this w)) = true /\
  last (output (browser w)) = Some (RecognitionStart 1).
Proof. split; reflexivity. Qed.

(** The first command of the utterance fails in [scrollTo]; the second
    one still scrolls. *)
Example scenario_failure_then_next_token :
  let w := run VariantB failingOnceWorld [utterance "down up"] in
  scrolls w = [200%Q] /\
  In (ConsoleError (MsgExecuteFailed "down" DOMException))
     (output (browser w)) /\
  lastCommand (state (this w)) = "up".
Proof. split; [reflexivity | split; [vm_compute; tauto | reflexivity]]. Qed.

Example scenario_idle_timeout :
  let w := run VariantA calmWorld [Click; Elapse; TimerFires 1] in
  isListening (state (this w)) = false /\
  timers (browser w) = ∅.
Proof. split; reflexivity. Qed.

(** * The properties of the specification *)

(** C1, as the code has it.  When [window.scrollTo] does not throw,
    [smoothScroll] applies exactly one position [top], which is never
    negative and is 0 for a negative target.  In variant A, [top] also
    never exceeds [document.body.scrollHeight], equals it for a target
    beyond it and equals the target in between.  In variant B there is no
    upper bound: every target that is not negative is applied as it is. *)
Theorem C1_smoothScroll_clamps (v : Variant) (p : Q) (w : World) :
  (0 <= scrollHeight (pageOf w))%Q ->
  nextThrows w = false ->
  exists top : Q,
    smoothScroll v p w = (logged (ScrollTo top) (ticked w), inr tt) /\
    (0 <= top)%Q /\
    ((p < 0)%Q -> (top == 0)%Q) /\
    match v with
    | VariantA =>
        (top <= scrollHeight (pageOf w))%Q /\
        ((scrollHeight (pageOf w) < p)%Q ->
         (top == scrollHeight (pageOf w))%Q) /\
        ((0 <= p)%Q -> (p <= scrollHeight (pageOf w))%Q -> (top == p)%Q)
    | VariantB => (0 <= p)%Q -> (top == p)%Q
    end.
Proof.
  intros Hh Ht. rewrite smoothScroll_run, window_scrollTo_run, Ht.
  eexists. split; [reflexivity|].
  destruct v.
  - split; [apply Q.le_max_l|]. split; [|split; [|split]].
    + intros Hp. apply Q.max_l.
      eapply Qle_trans; [apply Q.le_min_l | apply Qlt_le_weak, Hp].
    + apply Q.max_lub; [exact Hh | apply Q.le_min_r].
    + intros Hp. rewrite Q.min_r by (apply Qlt_le_weak, Hp).
      apply Q.max_r, Hh.
    + intros H0 Hp. rewrite Q.min_l by exact Hp. apply Q.max_r, H0.
  - split; [apply Q.le_max_l|]. split.
    + intros Hp. apply Q.max_l, Qlt_le_weak, Hp.
    + intros Hp. apply Q.max_r, Hp.
Qed.

Lemma C1_smoothScroll_clamps_witness :
  exists top : Q,
    smoothScroll VariantA 5000 calmWorld
    = (logged (ScrollTo top) (ticked calmWorld), inr tt) /\
    (top == 2000)%Q.
Proof.
  destruct (C1_smoothScroll_clamps VariantA 5000 calmWorld)
    as (top & Hrun & _ & _ & _ & Hmax & _).
  - vm_compute. discriminate.
  - reflexivity.
  - exists top. split; [exact Hrun|]. apply Hmax. reflexivity.
Defined.

(** C1 as stated fails in variant B: with a page of height 2000 the
    target 5000 is applied unchanged. *)
Lemma C1_variantB_passes_extent :
  smoothScroll VariantB 5000 calmWorld
  = (logged (ScrollTo 5000) (ticked calmWorld), inr tt) /\
  scrollHeight (pageOf calmWorld) = 2000%Q /\
  ~ (5000 <= scrollHeight (pageOf calmWorld))%Q.
Proof.
  split; [reflexivity|]. split; [reflexivity|].
  vm_compute. intros H. apply H. reflexivity.
Qed.

(** C2.  For a word that matches the command [c], read at the time
    [now = Date.now()]: [canExecuteCommand] answers true exactly when [c]
    differs from [lastCommand] or [now - lastCommandTime] is strictly
    greater than the debounce delay; [processCommand] then runs
    [executeCommand], and otherwise only logs the word as debounced.  The
    same command exactly the delay after the last one is suppressed, and
    later than that it executes. *)
Theorem C2_debounce_gate (v : Variant) (word c : string) (w : World) :
  findMatchingCommand v word = Some c ->
  (canExecuteCommand c w = (ticked w, inr true)
   <-> debounceGate c (nowOf w) w) /\
  (debounceGate c (nowOf w) w ->
   processCommand v word w = executeCommand v c (ticked w)) /\
  (~ debounceGate c (nowOf w) w ->
   processCommand v word w
   = (logged (ConsoleLog (MsgDebounced c)) (ticked w), inr tt)) /\
  (c = lastCommand (state (this w)) ->
   nowOf w - lastCommandTime (state (this w)) = debounceDelay (config (this w)) ->
   processCommand v word w
   = (logged (ConsoleLog (MsgDebounced c)) (ticked w), inr tt)) /\
  (c = lastCommand (state (this w)) ->
   nowOf w - lastCommandTime (state (this w)) > debounceDelay (config (this w)) ->
   processCommand v word w = executeCommand v c (ticked w)).
Proof.
  intros Hm.
  pose proof (gate_reflect c w) as Hg.
  pose proof (processCommand_matched v word c w Hm) as Hp.
  assert (Hopen : debounceGate c (nowOf w) w ->
                  processCommand v word w = executeCommand v c (ticked w)).
  { intros H. apply Hg in H. rewrite Hp, H. reflexivity. }
  assert (Hshut : ~ debounceGate c (nowOf w) w ->
                  processCommand v word w
                  = (logged (ConsoleLog (MsgDebounced c)) (ticked w), inr tt)).
  { intros H. rewrite Hp. destruct (_ || _); [|reflexivity].
    destruct H. apply Hg. reflexivity. }
  split; [|split; [exact Hopen | split; [exact Hshut | split]]].
  - rewrite canExecuteCommand_run, <- Hg. split.
    + intros [= H]. exact H.
    + intros ->. reflexivity.
  - intros Hc Ht. apply Hshut. intros [Hne | Hgt]; [congruence | lia].
  - intros Hc Ht. apply Hopen. right. exact Ht.
Qed.

Lemma C2_debounce_gate_witness :
  processCommand VariantA "down" (afterDown 1500)
  = (logged (ConsoleLog (MsgDebounced "down")) (ticked (afterDown 1500)), inr tt)
  /\
  processCommand VariantA "down" (afterDown 1501)
  = executeCommand VariantA "down" (ticked (afterDown 1501)).
Proof.
  split.
  - apply (C2_debounce_gate VariantA "down" "down" (afterDown 1500));
      reflexivity.
  - apply (C2_debounce_gate VariantA "down" "down" (afterDown 1501));
      reflexivity.
Defined.

Lemma handleRecognitionError_stops v kind d w :
  handleRecognitionError v (Some kind) w
  = (alert d ;; stopRecognition)
      (logged (ConsoleError (MsgRecognitionError kind)) w) ->
  let r := handleRecognitionError v (Some kind) w in
  returned r /\
  isListening (state (this (world_after r))) = false /\
  recognition (this (world_after r)) = None.
Proof.
  intros H. cbv zeta. rewrite H. split.
  - apply (total_bind (alert d) (fun _ => stopRecognition)).
    + apply total_effect.
    + intros _. apply total_stopRecognition.
  - rewrite bind_run. simpl.
    pose proof (stopRecognition_state
                  (logged (Alert d)
                     (logged (ConsoleError (MsgRecognitionError kind)) w))) as Hs.
    simpl in Hs. tauto.
Qed.

(** C3, as the code has it.  In variant A the kinds [not-allowed],
    [permission-denied] and [audio-capture] end in [stopRecognition]: the
    handler returns with [isListening] false and no recognition object,
    while [no-speech] and [network] add two console lines and change
    nothing else.  In variant B only [not-allowed] stops; every other
    error, [permission-denied] and [audio-capture] included, adds the one
    error line and changes nothing else. *)
Theorem C3_error_kinds (w : World) :
  (forall kind,
      In kind ["not-allowed"; "permission-denied"; "audio-capture"] ->
      let r := handleRecognitionError VariantA (Some kind) w in
      returned r /\
      isListening (state (this (world_after r))) = false /\
      recognition (this (world_after r)) = None) /\
  handleRecognitionError VariantA (Some "no-speech") w
  = (logged (ConsoleLog MsgNoSpeech)
       (logged (ConsoleError (MsgRecognitionError "no-speech")) w), inr tt) /\
  handleRecognitionError VariantA (Some "network") w
  = (logged (ConsoleLog MsgNetwork)
       (logged (ConsoleError (MsgRecognitionError "network")) w), inr tt) /\
  (let r := handleRecognitionError VariantB (Some "not-allowed") w in
   returned r /\
   isListening (state (this (world_after r))) = false /\
   recognition (this (world_after r)) = None) /\
  (forall error,
      errorMessageOf error <> "not-allowed" ->
      handleRecognitionError VariantB error w
      = (logged (ConsoleError (MsgRecognitionError (errorMessageOf error))) w,
         inr tt)).
Proof.
  split; [|split; [reflexivity | split; [reflexivity | split]]].
  - intros kind [<- | [<- | [<- | []]]].
    + apply (handleRecognitionError_stops _ _ DlgAccessDenied). reflexivity.
    + apply (handleRecognitionError_stops _ _ DlgAccessDenied). reflexivity.
    + apply (handleRecognitionError_stops _ _ DlgNoMicrophone). reflexivity.
  - apply (handleRecognitionError_stops _ _ DlgAccessDenied). reflexivity.
  - intros error Hne. unfold handleRecognitionError.
    apply String.eqb_neq in Hne. rewrite Hne. reflexivity.
Qed.

Lemma C3_error_kinds_witness :
  isListening
    (state (this (world_after
       (handleRecognitionError VariantA (Some "audio-capture")
          (listeningWorld VariantA))))) = false /\
  handleRecognitionError VariantB (Some "network") (listeningWorld VariantB)
  = (logged (ConsoleError (MsgRecognitionError "network"))
       (listeningWorld VariantB), inr tt).
Proof.
  destruct (C3_error_kinds (listeningWorld VariantA)) as (Hstop & _).
  destruct (C3_error_kinds (listeningWorld VariantB)) as (_ & _ & _ & _ & Hlog).
  split.
  - apply (Hstop "audio-capture"). simpl. tauto.
  - apply Hlog. vm_compute. discriminate.
Defined.

(** C3 as stated fails in variant B: the controller is listening, the
    error [audio-capture] arrives, and it is still listening afterwards. *)
Lemma C3_variantB_keeps_listening :
  isListening (state (this (listeningWorld VariantB))) = true /\
  isListening
    (state (this (step VariantB (listeningWorld VariantB)
                    (OnError (Some "audio-capture"))))) = true /\
  isListening
    (state (this (step VariantB (listeningWorld VariantB)
                    (OnError (Some "permission-denied"))))) = true.
Proof. repeat split; reflexivity. Qed.

Lemma first_occurrence v word c :
  findMatchingCommand v word = Some c <->
  exists before after,
    commandNames v = before ++ c :: after /\
    Wording.occursAsWord c word /\
    Forall (fun c' => ~ Wording.occursAsWord c' word) before.
Proof.
  unfold findMatchingCommand.
  rewrite (find_first (fun cmd => RegExp.test cmd word)).
  split; intros (before & after & Hn & Hc & Hb); exists before, after;
    (split; [exact Hn|]).
  - split.
    + apply test_wording; [|exact Hc].
      apply (commandNames_are_names v). rewrite Hn.
      apply in_or_app. right. left. reflexivity.
    + apply List.Forall_forall. intros c' Hin Ho.
      rewrite List.Forall_forall in Hb. specialize (Hb c' Hin).
      apply test_wording in Ho; [congruence|].
      apply (commandNames_are_names v). rewrite Hn.
      apply in_or_app. left. exact Hin.
  - split.
    + apply test_wording; [|exact Hc].
      apply (commandNames_are_names v). rewrite Hn.
      apply in_or_app. right. left. reflexivity.
    + apply List.Forall_forall. intros c' Hin.
      rewrite List.Forall_forall in Hb. specialize (Hb c' Hin).
      apply not_true_is_false. intros Ht. apply Hb.
      apply test_wording; [|exact Ht].
      apply (commandNames_are_names v). rewrite Hn.
      apply in_or_app. left. exact Hin.
Qed.

Lemma no_occurrence v word :
  findMatchingCommand v word = None <->
  Forall (fun c => ~ Wording.occursAsWord c word) (commandNames v).
Proof.
  unfold findMatchingCommand.
  rewrite (find_nothing (fun cmd => RegExp.test cmd word)).
  rewrite !List.Forall_forall. split; intros H c Hin.
  - intros Ho. apply test_wording in Ho;
      [rewrite (H c Hin) in Ho; discriminate
      | apply (commandNames_are_names v), Hin].
  - apply not_true_is_false. intros Ht. apply (H c Hin).
    apply test_wording; [apply (commandNames_are_names v), Hin | exact Ht].
Qed.

(** C4.  The command names are tried in the order up, down, top, bottom,
    fly, jump (and stop in variant A).  [findMatchingCommand] returns the
    first name whose pattern [\b<name>\b] occurs in the token, without
    regard to case, and returns nothing exactly when no name does; a token
    without a match runs no command and leaves the controller as it was.
    The token [download] matches no command.  What it is for the pattern
    to occur is also said in the claim's own words, without the regular
    expression: the name stands in the token in small or capital letters,
    with no letter, digit or underscore next to it.  So [UP] and
    [Scroll-DOWN,] select a command, and [you], [up_] and [uptown] select
    none. *)
Theorem C4_first_matching_command (v : Variant) (word : string) :
  commandNames v
  = ["up"; "down"; "top"; "bottom"; "fly"; "jump"]
    ++ match v with VariantA => ["stop"] | VariantB => [] end /\
  (forall c, RegExp.test c word = true <-> Occurs.occurs c word) /\
  (forall c,
      findMatchingCommand v word = Some c <->
      exists before after,
        commandNames v = before ++ c :: after /\
        RegExp.test c word = true /\
        Forall (fun c' => RegExp.test c' word = false) before) /\
  (findMatchingCommand v word = None <->
   Forall (fun c => RegExp.test c word = false) (commandNames v)) /\
  (findMatchingCommand v word = None ->
   forall w,
     processCommand v word w
     = (match v with
        | VariantA => w
        | VariantB => logged (ConsoleLog (MsgUnknownCommand word)) w
        end, inr tt)) /\
  findMatchingCommand v "download" = None /\
  (forall c,
      In c (commandNames v) ->
      (RegExp.test c word = true <-> Wording.occursAsWord c word)) /\
  (forall c,
      findMatchingCommand v word = Some c <->
      exists before after,
        commandNames v = before ++ c :: after /\
        Wording.occursAsWord c word /\
        Forall (fun c' => ~ Wording.occursAsWord c' word) before) /\
  (findMatchingCommand v word = None <->
   Forall (fun c => ~ Wording.occursAsWord c word) (commandNames v)) /\
  findMatchingCommand v "UP" = Some "up" /\
  findMatchingCommand v "Scroll-DOWN," = Some "down" /\
  findMatchingCommand v "Top" = Some "top" /\
  findMatchingCommand v "you" = None /\
  findMatchingCommand v "up_" = None /\
  findMatchingCommand v "uptown" = None /\
  findMatchingCommand v "7up" = None.
Proof.
  split; [destruct v; reflexivity|].
  split; [intros c; apply RegExpFacts.test_spec|].
  split; [intros c; apply (find_first (fun cmd => RegExp.test cmd word))|].
  split; [apply (find_nothing (fun cmd => RegExp.test cmd word))|].
  split.
  { intros H w. rewrite (processCommand_unmatched _ _ _ H).
    destruct v; reflexivity. }
  split; [destruct v; vm_compute; reflexivity|].
  split.
  { intros c Hin. apply test_wording, (commandNames_are_names v), Hin. }
  split; [intros c; apply first_occurrence|].
  split; [apply no_occurrence|].
  repeat split; destruct v; vm_compute; reflexivity.
Qed.

Lemma C4_first_matching_command_witness :
  findMatchingCommand VariantA "Top-DOWN" = Some "down" /\
  processCommand VariantB "download" calmWorld
  = (logged (ConsoleLog (MsgUnknownCommand "download")) calmWorld, inr tt).
Proof.
  destruct (C4_first_matching_command VariantA "Top-DOWN")
    as (_ & _ & _ & _ & _ & _ & Hword & Hfirst & _).
  destruct (C4_first_matching_command VariantB "download")
    as (_ & _ & _ & _ & Hnone & Hd & _).
  split.
  - apply Hfirst. exists ["up"], ["top"; "bottom"; "fly"; "jump"; "stop"].
    split; [reflexivity|]. split.
    + exists "Top-", "DOWN", "". repeat split; reflexivity.
    + constructor; [|constructor].
      intros Ho. apply (Hword "up") in Ho; [discriminate Ho|].
      left. reflexivity.
  - apply Hnone. exact Hd.
Defined.

(** C5, as the code has it.  In variant A [cleanTranscript] is the
    cleaning of the specification: lower-case, trim, split on runs of
    white space, drop the empty tokens and the noise words; these are the
    words of the lower-cased transcript that are not noise.  In variant B
    the empty token is not dropped: a transcript without a word is cleaned
    to the one empty token, and every other transcript as in the
    specification.  In both variants a transcript composed only of noise
    words is cleaned to tokens that match no command, so that processing
    them runs no command and leaves the controller as it was (variant B
    logs each token as unknown); when every word is itself an entry of the
    noise-word set, the cleaning of the specification is empty. *)
Theorem C5_cleanTranscript (v : Variant) (t : string) :
  cleanTranscript VariantA t = Tokens.cleanTranscript_spec VariantA t /\
  cleanTranscript VariantB t
  = (if Str.isEmpty (Str.trim (Str.toLowerCase t)) then [EmptyString]
     else Tokens.cleanTranscript_spec VariantB t) /\
  Tokens.cleanTranscript_spec v t
  = List.filter (fun word => negb (isNoise v word))
      (Str.words_from (Str.toLowerCase t)) /\
  (Tokens.onlyNoiseEntries v t -> Tokens.cleanTranscript_spec v t = []) /\
  (Tokens.onlyNoise v t ->
   Forall (fun word => findMatchingCommand v word = None)
          (cleanTranscript v t) /\
   forall w,
     forEach (processCommand v) (cleanTranscript v t) w
     = (match v with
        | VariantA => w
        | VariantB =>
            fold_left
              (fun w word => logged (ConsoleLog (MsgUnknownCommand word)) w)
              (cleanTranscript v t) w
        end, inr tt)).
Proof.
  split; [apply cleanTranscript_A|].
  split; [apply cleanTranscript_B|].
  split; [apply cleanTranscript_spec_words|].
  split; [apply onlyNoiseEntries_no_word|].
  intros Hn. pose proof (onlyNoise_unmatched v t Hn) as Hu.
  split; [exact Hu|]. intros w. apply forEach_unmatched, Hu.
Qed.

Lemma C5_cleanTranscript_witness :
  cleanTranscript VariantA "Uh  you KNOW so" = ["you"; "know"] /\
  forEach (processCommand VariantA) (cleanTranscript VariantA "Uh  you KNOW so")
    calmWorld = (calmWorld, inr tt).
Proof.
  destruct (C5_cleanTranscript VariantA "Uh  you KNOW so")
    as (_ & _ & _ & _ & H).
  assert (Hn : Tokens.onlyNoise VariantA "Uh  you KNOW so").
  { unfold Tokens.onlyNoise.
    change (Str.words_from (Str.toLowerCase "Uh  you KNOW so"))
      with ["uh"; "you"; "know"; "so"].
    repeat constructor.
    - exists "uh". split; [|left; reflexivity].
      apply (bool_decide_unpack _). vm_compute. exact I.
    - exists "you know". split; [|left; reflexivity].
      apply (bool_decide_unpack _). vm_compute. exact I.
    - exists "you know". split; [|right; left; reflexivity].
      apply (bool_decide_unpack _). vm_compute. exact I.
    - exists "so". split; [|left; reflexivity].
      apply (bool_decide_unpack _). vm_compute. exact I. }
  destruct (H Hn) as [_ Hrun].
  split; [reflexivity | apply Hrun].
Defined.

(** C5 as stated fails in variant B: the empty transcript is cleaned to
    one empty token, which the specification's cleaning drops. *)
Lemma C5_variantB_keeps_empty_token :
  cleanTranscript VariantB "" = [EmptyString] /\
  Tokens.cleanTranscript_spec VariantB "" = [] /\
  cleanTranscript VariantB "   " <> Tokens.cleanTranscript_spec VariantB "   ".
Proof. repeat split; vm_compute; try reflexivity; discriminate. Qed.

Lemma handleRecognitionResult_total v event :
  total (handleRecognitionResult v event).
Proof.
  unfold handleRecognitionResult, console_log.
  pose proof (processCommand_total v). total_go.
Qed.

(** The result handler: the idle timer is reset, variant A writes what it
    heard, and then every token of the cleaned transcript goes through
    [processCommand], from left to right. *)
Lemma handleRecognitionResult_run v event w :
  handleRecognitionResult v event w
  = (fold_left (fun w word => world_after (processCommand v word w))
       (cleanTranscript v (transcript event))
       (match v with
        | VariantA =>
            logged (ConsoleLog (MsgHeard (transcript event) (confidence event)))
                   (world_after (resetIdleTimeout w))
        | VariantB => world_after (resetIdleTimeout w)
        end),
     inr tt).
Proof.
  unfold handleRecognitionResult, world_after. rewrite bind_run.
  destruct (total_resetIdleTimeout w) as [[] Hr].
  destruct (resetIdleTimeout w) as [w1 r]. simpl in *. subst r.
  destruct v; rewrite bind_run; simpl;
    apply forEach_fold, processCommand_total.
Qed.

(** C6.  When the action bound to a command throws, [executeCommand]
    catches the exception, writes it to the error console and returns; the
    controller, session state included, is as it was before the action.
    When the action returns, [lastCommand] is the command and
    [lastCommandTime] the time read after the action.  [processCommand]
    never throws, so [forEach] goes through every token of the transcript
    from left to right, and the result handler itself never throws.  The
    result handler runs [processCommand] on every token of the cleaned
    transcript in turn; when the action of a token throws, the tokens
    after it are processed from the world in which the error has been
    logged. *)
Theorem C6_action_failure_contained (v : Variant) (command : string)
    (c : Command) :
  lookupCommand command (commands v) = Some c ->
  (forall w w' e,
      action c w = (w', inl e) ->
      executeCommand v command w
      = (logged (ConsoleError (MsgExecuteFailed command e)) w', inr tt) /\
      this (world_after (executeCommand v command w)) = this w) /\
  (forall w w',
      action c w = (w', inr tt) ->
      exists w'',
        executeCommand v command w = (w'', inr tt) /\
        lastCommand (state (this w'')) = command /\
        lastCommandTime (state (this w'')) = nowOf w') /\
  (forall word, total (processCommand v word)) /\
  (forall words w,
      forEach (processCommand v) words w
      = (fold_left (fun w word => world_after (processCommand v word w))
           words w, inr tt)) /\
  (forall event, total (handleRecognitionResult v event)) /\
  (forall event w,
      handleRecognitionResult v event w
      = (fold_left (fun w word => world_after (processCommand v word w))
           (cleanTranscript v (transcript event))
           (match v with
            | VariantA =>
                logged (ConsoleLog (MsgHeard (transcript event)
                                      (confidence event)))
                       (world_after (resetIdleTimeout w))
            | VariantB => world_after (resetIdleTimeout w)
            end),
         inr tt)) /\
  (forall word rest w w' e,
      findMatchingCommand v word = Some command ->
      debounceGate command (nowOf w) w ->
      action c (ticked w) = (w', inl e) ->
      forEach (processCommand v) (word :: rest) w
      = forEach (processCommand v) rest
          (logged (ConsoleError (MsgExecuteFailed command e)) w') /\
      this (logged (ConsoleError (MsgExecuteFailed command e)) w') = this w).
Proof.
  intros Hl. split; [|split; [|split; [|split; [|split; [|split]]]]].
  - intros w w' e Ha.
    pose proof (executeCommand_failure _ _ _ _ _ _ Hl Ha) as He.
    split; [exact He|]. rewrite He.
    destruct (action_throws _ _ _ _ _ _ Hl Ha) as (-> & _ & _). reflexivity.
  - intros w w' Ha.
    destruct (executeCommand_success _ _ _ _ _ Hl Ha) as (w'' & He & Hs & _).
    exists w''. rewrite Hs. auto.
  - apply processCommand_total.
  - intros words w. apply forEach_fold, processCommand_total.
  - apply handleRecognitionResult_total.
  - apply handleRecognitionResult_run.
  - intros word rest w w' e Hm Hg Ha. split.
    + simpl forEach. rewrite bind_run, (processCommand_matched _ _ _ _ Hm).
      apply gate_reflect in Hg. rewrite Hg.
      rewrite (executeCommand_failure _ _ _ _ _ _ Hl Ha). reflexivity.
    + destruct (action_throws _ _ _ _ _ _ Hl Ha) as (-> & _ & _). reflexivity.
Qed.

Lemma C6_action_failure_contained_witness :
  executeCommand VariantA "down" failingWorld
  = (logged (ConsoleError (MsgExecuteFailed "down" DOMException))
       (ticked failingWorld), inr tt) /\
  this (world_after (executeCommand VariantA "down" failingWorld))
  = this failingWorld /\
  forEach (processCommand VariantA) ["down"; "up"] failingOnceWorld
  = forEach (processCommand VariantA) ["up"]
      (logged (ConsoleError (MsgExecuteFailed "down" DOMException))
         (ticked (ticked failingOnceWorld))).
Proof.
  destruct (C6_action_failure_contained VariantA "down"
              {| description := "Scroll down";
                 action :=
                   w <- get ;;
                   smoothScroll VariantA
                     (scrollY (pageOf w)
                      + scrollAmount (config (this w)))%Q |} eq_refl)
    as (Hfail & _ & _ & _ & _ & _ & Hnext).
  split; [|split].
  - apply (Hfail failingWorld (ticked failingWorld) DOMException).
    reflexivity.
  - apply (Hfail failingWorld (ticked failingWorld) DOMException).
    reflexivity.
  - apply (Hnext "down" ["up"] failingOnceWorld
             (ticked (ticked failingOnceWorld)) DOMException).
    + reflexivity.
    + left. discriminate.
    + reflexivity.
Defined.

Lemma result_cancels_stale v event w :
  TimerInv w -> staleCancelled w (step v w (OnResult event)).
Proof.
  intros H. unfold step, handler, handleRecognitionResult.
  destruct (resetIdleTimeout_inv w H) as (H1 & _ & Hnext & Hidle).
  destruct (total_resetIdleTimeout w) as [[] Hr].
  unfold world_after in *. rewrite bind_run.
  destruct (resetIdleTimeout w) as [w1 r]. simpl in *. subst r.
  set (rest := (_ ;; forEach _ _)).
  assert (Hgrow : respects timersGrow rest).
  { subst rest. unfold console_log. grow_go. }
  destruct (Hgrow w1) as [_ Hold]. unfold world_after in Hold.
  intros id Hp Hp'.
  pose proof (inv_range _ H _ _ Hp) as Hrange.
  apply Hold in Hp'; [|lia]. apply Hidle in Hp'. lia.
Qed.

Lemma new_timer_cancels_stale w w' id :
  TimerInv w -> TimerInv w' ->
  idlePending w' id -> (nextTimer (browser w) <= id)%nat ->
  staleCancelled w w'.
Proof.
  intros H H' Hp Hnew id' Hold Hstill.
  pose proof (inv_range _ H _ _ Hold) as Hrange.
  pose proof (TimerInv_unique _ _ _ H' Hp Hstill). lia.
Qed.

Lemma fireTimer_idle v id w :
  idlePending w id ->
  handler v (TimerFires id) w
  = (match v with
     | VariantA => console_log MsgInactivity
     | VariantB => ret tt
     end ;; stopRecognition) (with_browser (drop_timer id) w).
Proof.
  intros Hp. simpl. unfold fireTimer. rewrite bind_run. simpl.
  unfold idlePending in Hp. rewrite Hp. reflexivity.
Qed.

Lemma fireTimer_stops v id w :
  TimerInv w -> idlePending w id ->
  isListening (state (this (step v w (TimerFires id)))) = false /\
  forall id', ~ idlePending (step v w (TimerFires id)) id'.
Proof.
  intros H Hp. unfold step. rewrite (fireTimer_idle v id w Hp).
  pose proof (keepsInv_drop id w H) as H1. unfold world_after in H1.
  simpl in H1. destruct v.
  - rewrite bind_run. simpl.
    pose proof (keepsInv_emit (ConsoleLog MsgInactivity) _ H1) as H2.
    split; [apply stopRecognition_state | apply stopRecognition_timers, H2].
  - rewrite bind_run. simpl.
    split; [apply stopRecognition_state | apply stopRecognition_timers, H1].
Qed.



(** C8.  An end notification that arrives while [isListening] is true
    calls [start] on the recognition object again and leaves the
    controller listening; when that call throws, the exception is logged,
    [stopRecognition] runs and the controller is inactive.  An end
    notification that arrives while [isListening] is false changes
    nothing. *)
Theorem C8_end_restarts (w : World) :
  (isListening (state (this w)) = true ->
   forall handle,
     recognition (this w) = Some handle -> nextThrows w = false ->
     handleRecognitionEnd w
     = (logged (RecognitionStart handle) (ticked w), inr tt) /\
     isListening (state (this (world_after (handleRecognitionEnd w)))) = true) /\
  (isListening (state (this w)) = true ->
   recognition (this w) = None \/ nextThrows w = true ->
   exists w' e,
     recognition_start (recognition (this w)) w = (w', inl e) /\
     handleRecognitionEnd w
     = stopRecognition (logged (ConsoleError (MsgRestartFailed e)) w') /\
     returned (handleRecognitionEnd w) /\
     isListening (state (this (world_after (handleRecognitionEnd w)))) = false /\
     recognition (this (world_after (handleRecognitionEnd w))) = None) /\
  (isListening (state (this w)) = false ->
   handleRecognitionEnd w = (w, inr tt)).
Proof.
  split; [|split].
  - intros Hl handle Hr Ht. unfold handleRecognitionEnd.
    rewrite bind_run. simpl. rewrite Hl, Hr.
    unfold recognition_start, host_throws, tryCatch.
    rewrite bind_run. simpl. unfold nextThrows in Ht. rewrite Ht. simpl.
    split; [reflexivity | exact Hl].
  - intros Hl Hfail.
    assert (Hthrow : exists w' e,
               recognition_start (recognition (this w)) w = (w', inl e)).
    { destruct (recognition (this w)) as [handle|] eqn:Hr.
      - destruct Hfail as [Hfail | Ht]; [discriminate|].
        exists (ticked w), DOMException.
        unfold recognition_start, host_throws. rewrite bind_run. simpl.
        unfold nextThrows in Ht. rewrite Ht. reflexivity.
      - exists w, TypeError. reflexivity. }
    destruct Hthrow as (w' & e & Hs). exists w', e.
    assert (He : handleRecognitionEnd w
                 = stopRecognition (logged (ConsoleError (MsgRestartFailed e)) w')).
    { unfold handleRecognitionEnd. rewrite bind_run. simpl. rewrite Hl.
      erewrite tryCatch_throws by exact Hs. reflexivity. }
    split; [exact Hs|]. split; [exact He|]. rewrite He.
    split; [apply total_stopRecognition|].
    pose proof (stopRecognition_state
                  (logged (ConsoleError (MsgRestartFailed e)) w')) as Hst.
    simpl in Hst. tauto.
  - intros Hl. unfold handleRecognitionEnd. rewrite bind_run. simpl.
    rewrite Hl. reflexivity.
Qed.

Lemma C8_end_restarts_witness :
  handleRecognitionEnd (listeningWorld VariantA)
  = (logged (RecognitionStart 1) (ticked (listeningWorld VariantA)), inr tt) /\
  handleRecognitionEnd calmWorld = (calmWorld, inr tt).
Proof.
  destruct (C8_end_restarts (listeningWorld VariantA)) as (Hok & _).
  destruct (C8_end_restarts calmWorld) as (_ & _ & Hidle).
  split.
  - apply (Hok eq_refl 1%nat eq_refl eq_refl).
  - apply Hidle. reflexivity.
Defined.

(** C9.  The constructed configuration holds, for each of [idleDuration],
    [debounceDelay], [scrollAmount] and [lang], the caller's value when the
    caller's object has the key and 10000, 500, 100 and [en-US] when it has
    not; and no sequence of events changes the configuration. *)
Theorem C9_configuration (v : Variant) (arg : ConfigArg) (h : Host)
    (events : list Event) :
  idleDuration (config (constructor arg))
  = match arg_idleDuration arg with Some x => x | None => 10000 end /\
  debounceDelay (config (constructor arg))
  = match arg_debounceDelay arg with Some x => x | None => 500 end /\
  scrollAmount (config (constructor arg))
  = match arg_scrollAmount arg with Some x => x | None => 100%Q end /\
  lang (config (constructor arg))
  = match arg_lang arg with Some x => x | None => "en-US" end /\
  config (this (run v (initialWorld arg h) events)) = config (constructor arg).
Proof.
  destruct arg as [[i|] [d|] [a|] [l|]]; simpl;
    repeat split; try reflexivity;
    apply (sameConfig_run v events (initialWorld _ h)).
Qed.

(** C10.  The noise-word set holds the entry [you know], but no token that
    [split] produces contains white space, so no token is that entry: the
    tokens [you] and [know] are kept whenever they occur, and
    [cleanTranscript] returns what it would return without the entry. *)
Theorem C10_two_word_entry_never_matches (v : Variant) (t : string) :
  let tokens := Str.splitWhitespace (Str.trim (Str.toLowerCase t)) in
  "you know" ∈ noiseWords v /\
  Forall (fun tok => Str.hasWhiteSpace tok = false /\ tok <> "you know")
         tokens /\
  (In "you" tokens -> In "you" (cleanTranscript v t)) /\
  (In "know" tokens -> In "know" (cleanTranscript v t)) /\
  cleanTranscript v t
  = match v with
    | VariantA =>
        List.filter
          (fun word => negb (Str.isEmpty word)
                       && negb (Tokens.isNoiseWithout "you know" v word))
          tokens
    | VariantB =>
        List.filter
          (fun word => negb (Tokens.isNoiseWithout "you know" v word)) tokens
    end.
Proof.
  intros tokens.
  assert (Hsp : Forall (fun tok => Str.hasWhiteSpace tok = false
                                   /\ tok <> "you know") tokens).
  { eapply List.Forall_impl; [| apply StrFacts.split_from_no_space].
    intros tok H. split; [exact H|]. intros Heq. subst tok. discriminate. }
  split; [destruct v; apply (bool_decide_unpack _); vm_compute; exact I|].
  split; [exact Hsp|].
  split; [|split].
  - intros H. destruct v; apply filter_In; (split; [exact H|]);
      vm_compute; reflexivity.
  - intros H. destruct v; apply filter_In; (split; [exact H|]);
      vm_compute; reflexivity.
  - assert (Hsame : Forall (fun tok => isNoise v tok
                            = Tokens.isNoiseWithout "you know" v tok) tokens).
    { eapply List.Forall_impl; [| exact Hsp]. intros tok [_ Hne]. simpl.
      unfold isNoise, Tokens.isNoiseWithout. apply bool_decide_ext.
      rewrite elem_of_difference, elem_of_singleton. tauto. }
    unfold cleanTranscript. fold tokens.
    destruct v; apply filter_agree;
      (eapply List.Forall_impl; [| exact Hsame]); intros tok Ht; simpl in *;
      rewrite Ht; reflexivity.
Qed.

Lemma C10_two_word_entry_never_matches_witness :
  In "you" (cleanTranscript VariantA "So YOU know") /\
  In "know" (cleanTranscript VariantA "So YOU know").
Proof.
  destruct (C10_two_word_entry_never_matches VariantA "So YOU know")
    as (_ & _ & Hyou & Hknow & _).
  split; [apply Hyou | apply Hknow]; vm_compute; tauto.
Defined.

(** * The rest of the class *)

(** ** Handlers that never throw *)

Lemma total_handleRecognitionError v error :
  total (handleRecognitionError v error).
Proof.
  unfold handleRecognitionError, console_error, console_log, alert. total_go.
Qed.
#[local] Hint Resolve total_handleRecognitionError : total_db.

Lemma total_startRecognition v : total (startRecognition v).
Proof. unfold startRecognition, console_error. total_go. Qed.
#[local] Hint Resolve total_startRecognition : total_db.

(** ** Starting *)

(** Open [startRecognition] up to the calls whose outcome the host
    decides. *)
Ltac start_go :=
  unfold nextThrows, idlePending, coherent, sameLast in *; simpl in *;
  unfold startRecognition, tryCatch, new_SpeechRecognition, recognition_start,
    host_throws, showCommandsList, window_confirm, updateUIState,
    handleRecognitionError, console_error, console_log, alert,
    bind, get, modify, ret, throw, effect, world_after;
  simpl.

(** X3.  When the browser has a recognition constructor, [start()] does
    not throw and (in variant A) the user confirms the dialog,
    [startRecognition] leaves the controller listening on the new
    recognition object, with the idle timer it has just set pending for
    the configured idle duration; [lastCommand] and [lastCommandTime] are
    not reset. *)
Theorem X3_start_succeeds (v : Variant) (w : World) :
  supported (host w) = true ->
  nextThrows w = false ->
  (v = VariantA -> answers (host w) (S (tick (browser w))) = true) ->
  let w' := world_after (startRecognition v w) in
  isListening (state (this w')) = true /\
  recognition (this w') = Some (nextHandle (browser w)) /\
  idleTimeout (this w') = Some (nextTimer (browser w)) /\
  idlePending w' (nextTimer (browser w)) /\
  In (SetTimeout (nextTimer (browser w)) IdleCallback
        (idleDuration (config (this w)))) (output (browser w')) /\
  last (output (browser w')) = Some (ConsoleLog MsgStarted) /\
  sameLast w w'.
Proof.
  intros Hs Ht Ha.
  destruct w as [[cfg st rec idle] hst [tk tm nt nh out]].
  start_go. rewrite Hs. simpl. rewrite Ht. simpl.
  destruct v; simpl; rewrite ?(Ha eq_refl); simpl;
    destruct idle as [[|n]|]; simpl;
    rewrite lookup_insert_eq, !last_snoc;
    (repeat split; try reflexivity);
    rewrite !in_app_iff; simpl; tauto.
Qed.

Lemma X3_start_succeeds_witness :
  isListening (state (this (world_after (startRecognition VariantA calmWorld))))
  = true /\
  idlePending (world_after (startRecognition VariantA calmWorld)) 1.
Proof.
  destruct (X3_start_succeeds VariantA calmWorld eq_refl eq_refl
              (fun _ => eq_refl)) as (Hl & _ & _ & Hp & _).
  split; [exact Hl | exact Hp].
Defined.

(** X4.  When there is no recognition constructor, [startRecognition]
    changes nothing of the controller; when [start()] throws, the new
    recognition object stays in [this.recognition] but the controller is
    not marked listening.  In both cases no timer is set, the failure is
    written to the error console and nothing is thrown. *)
Theorem X4_start_fails (v : Variant) (w : World) :
  (supported (host w) = false ->
   let w' := world_after (startRecognition v w) in
   returned (startRecognition v w) /\
   this w' = this w /\
   timers (browser w') = timers (browser w) /\
   In (ConsoleError (MsgStartFailed TypeError)) (output (browser w'))) /\
  (supported (host w) = true -> nextThrows w = true ->
   let w' := world_after (startRecognition v w) in
   returned (startRecognition v w) /\
   recognition (this w') = Some (nextHandle (browser w)) /\
   state (this w') = state (this w) /\
   idleTimeout (this w') = idleTimeout (this w) /\
   timers (browser w') = timers (browser w) /\
   In (ConsoleError (MsgStartFailed DOMException)) (output (browser w'))).
Proof.
  split.
  - intros Hs. split; [apply total_startRecognition|].
    destruct w as [[cfg st rec idle] hst [tk tm nt nh out]].
    start_go. rewrite Hs. simpl.
    destruct v; simpl; (repeat split; try reflexivity);
      rewrite !in_app_iff; simpl; tauto.
  - intros Hs Ht. split; [apply total_startRecognition|].
    destruct w as [[cfg st rec idle] hst [tk tm nt nh out]].
    start_go. rewrite Hs. simpl. rewrite Ht. simpl.
    destruct v; simpl; (repeat split; try reflexivity);
      rewrite !in_app_iff; simpl; tauto.
Qed.

Lemma X4_start_fails_witness :
  recognition (this (world_after (startRecognition VariantB failingWorld)))
  = Some 1%nat /\
  state (this (world_after (startRecognition VariantB failingWorld)))
  = state (this failingWorld).
Proof.
  destruct (X4_start_fails VariantB failingWorld) as (_ & H).
  destruct (H eq_refl eq_refl) as (_ & Hr & Hst & _).
  split; [exact Hr | exact Hst].
Defined.

(** X5.  In variant A, when the user declines the dialog of
    [showCommandsList], [stopRecognition] runs, and [resetIdleTimeout]
    still runs after it: the controller is not listening and holds no
    recognition object, yet the idle timer just set is pending. *)
Theorem X5_declined_dialog_leaves_timer (w : World) :
  supported (host w) = true ->
  nextThrows w = false ->
  answers (host w) (S (tick (browser w))) = false ->
  let w' := world_after (startRecognition VariantA w) in
  isListening (state (this w')) = false /\
  recognition (this w') = None /\
  idleTimeout (this w') = Some (nextTimer (browser w)) /\
  idlePending w' (nextTimer (browser w)) /\
  In (RecognitionStop (nextHandle (browser w))) (output (browser w')).
Proof.
  intros Hs Ht Ha.
  destruct w as [[cfg st rec idle] hst [tk tm nt nh out]].
  start_go. rewrite Hs. simpl. rewrite Ht. simpl. rewrite Ha. simpl.
  unfold stopRecognition, clearIdleTimeout, resetIdleTimeout, setTimeout,
    clearTimeout, recognition_stop, updateUIState, console_log, effect,
    bind, get, modify, ret. simpl.
  destruct idle as [[|n]|]; simpl;
    rewrite lookup_insert_eq;
    (repeat split; try reflexivity);
    rewrite !in_app_iff; simpl; tauto.
Qed.

Lemma X5_declined_dialog_leaves_timer_witness :
  let w' := world_after
              (startRecognition VariantA (initialWorld noArg decliningHost)) in
  isListening (state (this w')) = false /\ idlePending w' 1.
Proof.
  destruct (X5_declined_dialog_leaves_timer (initialWorld noArg decliningHost)
              eq_refl eq_refl eq_refl) as (Hl & _ & _ & Hp & _).
  split; [exact Hl | exact Hp].
Defined.

(** ** A listening controller has its recognition object *)

Lemma keepsCoherent_refl w : keepsCoherent w w.
Proof. intros H. exact H. Qed.

Lemma keepsCoherent_trans a b c :
  keepsCoherent a b -> keepsCoherent b c -> keepsCoherent a c.
Proof. unfold keepsCoherent. auto. Qed.

Lemma keepsCoherent_browser f : respects keepsCoherent (modify (with_browser f)).
Proof. intros w H. exact H. Qed.

Lemma keepsCoherent_effect e : respects keepsCoherent (effect e).
Proof. intros w H. exact H. Qed.

Lemma keepsCoherent_idleTimeout t :
  respects keepsCoherent (modify (with_this (set_idleTimeout t))).
Proof. intros w H. exact H. Qed.

Lemma keepsCoherent_lastCommand x :
  respects keepsCoherent
    (modify (with_this (fun c => set_state (set_lastCommand x (state c)) c))).
Proof. intros w H. exact H. Qed.

Lemma keepsCoherent_lastCommandTime t :
  respects keepsCoherent
    (modify (with_this (fun c => set_state (set_lastCommandTime t (state c)) c))).
Proof. intros w H. exact H. Qed.

Lemma keepsCoherent_stopRecognition : respects keepsCoherent stopRecognition.
Proof.
  intros w _ Hl. destruct (stopRecognition_state w) as (Hf & _).
  cbv zeta in Hf. congruence.
Qed.

Lemma keepsCoherent_startRecognition v :
  respects keepsCoherent (startRecognition v).
Proof.
  intros w. destruct w as [[cfg st rec idle] hst [tk tm nt nh out]].
  unfold keepsCoherent. start_go.
  destruct (supported hst); simpl; [destruct (throws hst tk); simpl|].
  - destruct v; simpl; eauto.
  - destruct v; simpl; [destruct (answers hst (S tk)); simpl|].
    + destruct idle as [[|n]|]; simpl; eauto.
    + unfold stopRecognition, clearIdleTimeout, resetIdleTimeout, setTimeout,
        clearTimeout, recognition_stop, updateUIState, console_log, effect,
        bind, get, modify, ret. simpl.
      destruct idle as [[|n]|]; simpl; discriminate.
    + destruct idle as [[|n]|]; simpl; eauto.
  - destruct v; simpl; auto.
Qed.

#[local] Hint Resolve keepsCoherent_browser keepsCoherent_effect
  keepsCoherent_idleTimeout keepsCoherent_lastCommand
  keepsCoherent_lastCommandTime keepsCoherent_stopRecognition
  keepsCoherent_startRecognition : respects_db.

Ltac coherent_go := respects_go keepsCoherent_refl keepsCoherent_trans.

Lemma keepsCoherent_action v command c :
  lookupCommand command (commands v) = Some c ->
  respects keepsCoherent (action c).
Proof.
  intros H. destruct v; simpl in H;
    repeat match type of H with
    | (if ?b then _ else _) = _ =>
        destruct b;
        [ injection H as <-; simpl;
          unfold smoothScroll, window_scrollTo, host_throws; coherent_go |]
    end; discriminate.
Qed.

Lemma keepsCoherent_executeCommand v command :
  respects keepsCoherent (executeCommand v command).
Proof.
  unfold executeCommand, console_log, console_error, showCommandFeedback,
    setTimeout, Date_now.
  apply (respects_tryCatch _ keepsCoherent_trans); [| intros ?; coherent_go].
  apply (respects_bind _ keepsCoherent_trans); [| intros ?; coherent_go].
  destruct (lookupCommand command (commands v)) eqn:H.
  - eapply keepsCoherent_action; eassumption.
  - coherent_go.
Qed.
#[local] Hint Resolve keepsCoherent_executeCommand : respects_db.

Lemma keepsCoherent_handler v e : respects keepsCoherent (handler v e).
Proof.
  destruct e; simpl.
  - unfold toggleRecognition. coherent_go.
  - unfold handleRecognitionResult, resetIdleTimeout, clearIdleTimeout,
      clearTimeout, setTimeout, processCommand, canExecuteCommand, Date_now,
      console_log.
    coherent_go.
  - unfold handleRecognitionError, console_error, console_log, alert.
    coherent_go.
  - unfold handleRecognitionEnd, recognition_start, host_throws, console_error.
    coherent_go.
  - unfold fireTimer, console_log. coherent_go.
  - intros w _ Hl. exfalso. revert Hl. unfold destroy, world_after.
    rewrite bind_run.
    destruct (total_stopRecognition w) as [[] Hr].
    pose proof (stopRecognition_state w) as (Hf & _). cbv zeta in Hf.
    unfold world_after in Hf.
    destruct (stopRecognition w) as [w1 r]. simpl in *. subst r. simpl.
    congruence.
  - coherent_go.
Qed.

Lemma coherent_run v events w : coherent w -> coherent (run v w events).
Proof.
  revert w. induction events as [|e events IH]; intros w H; simpl.
  - exact H.
  - apply IH. apply (keepsCoherent_handler v e w H).
Qed.

(** X6.  In every world the event loop reaches from the constructed
    controller, a controller that is marked listening holds a recognition
    object: [isListening] is never true while [this.recognition] is
    null. *)
Theorem X6_listening_has_recognition (v : Variant) (arg : ConfigArg)
    (h : Host) (events : list Event) :
  let w := run v (initialWorld arg h) events in
  isListening (state (this w)) = true ->
  exists handle, recognition (this w) = Some handle.
Proof.
  apply (coherent_run v events (initialWorld arg h)).
  intros H. discriminate.
Qed.

Lemma X6_listening_has_recognition_witness :
  exists handle, recognition (this (listeningWorld VariantA)) = Some handle.
Proof.
  apply (X6_listening_has_recognition VariantA noArg calmHost [Click]).
  reflexivity.
Defined.

(** ** Who writes the memory of the debounce gate *)

Lemma sameLast_refl w : sameLast w w.
Proof. split; reflexivity. Qed.

Lemma sameLast_trans a b c : sameLast a b -> sameLast b c -> sameLast a c.
Proof. unfold sameLast. intros [? ?] [? ?]. split; congruence. Qed.

Lemma sameLast_browser f : respects sameLast (modify (with_browser f)).
Proof. intros w. split; reflexivity. Qed.

Lemma sameLast_effect e : respects sameLast (effect e).
Proof. intros w. split; reflexivity. Qed.

Lemma sameLast_recognition r :
  respects sameLast (modify (with_this (set_recognition r))).
Proof. intros w. split; reflexivity. Qed.

Lemma sameLast_idleTimeout t :
  respects sameLast (modify (with_this (set_idleTimeout t))).
Proof. intros w. split; reflexivity. Qed.

Lemma sameLast_updateUIState b : respects sameLast (updateUIState b).
Proof. intros w. split; reflexivity. Qed.

#[local] Hint Resolve sameLast_browser sameLast_effect sameLast_recognition
  sameLast_idleTimeout sameLast_updateUIState : respects_db.

Ltac last_go := respects_go sameLast_refl sameLast_trans.

Lemma sameLast_stopRecognition : respects sameLast stopRecognition.
Proof.
  unfold stopRecognition, clearIdleTimeout, clearTimeout, recognition_stop,
    console_log.
  last_go.
Qed.
#[local] Hint Resolve sameLast_stopRecognition : respects_db.

(** X7.  Only a result notification writes [lastCommand] and
    [lastCommandTime]: a click, an error, an end notification, a timer, a
    call of [destroy] and the passing of time leave both as they were, so
    stopping and starting again does not reset the debounce gate. *)
Theorem X7_only_results_write_last_command (v : Variant) (e : Event)
    (w : World) :
  (forall event, e <> OnResult event) ->
  sameLast w (step v w e).
Proof.
  intros Hne. unfold step.
  change (sameLast w (world_after (handler v e w))).
  generalize w. change (respects sameLast (handler v e)).
  destruct e; simpl.
  - unfold toggleRecognition, startRecognition, showCommandsList,
      new_SpeechRecognition, recognition_start, window_confirm, host_throws,
      handleRecognitionError, resetIdleTimeout, clearIdleTimeout, clearTimeout,
      setTimeout, console_log, console_error, alert.
    last_go.
  - destruct (Hne event). reflexivity.
  - unfold handleRecognitionError, console_error, console_log, alert. last_go.
  - unfold handleRecognitionEnd, recognition_start, host_throws, console_error.
    last_go.
  - unfold fireTimer, console_log. last_go.
  - unfold destroy. last_go.
  - last_go.
Qed.

Lemma X7_only_results_write_last_command_witness :
  sameLast (afterDown 1500) (step VariantA (afterDown 1500) Click).
Proof.
  apply (X7_only_results_write_last_command VariantA Click (afterDown 1500)).
  intros event H. discriminate.
Defined.

(** ** A browser without speech recognition *)

Lemma staysOff_refl w : staysOff w w.
Proof. split; auto. Qed.

Lemma staysOff_trans a b c : staysOff a b -> staysOff b c -> staysOff a c.
Proof.
  intros [Hh1 H1] [Hh2 H2]. split; [congruence|].
  intros Hs Hl. apply H2; [rewrite Hh1; exact Hs | apply H1; assumption].
Qed.

Lemma staysOff_browser f : respects staysOff (modify (with_browser f)).
Proof. intros w. split; auto. Qed.

Lemma staysOff_effect e : respects staysOff (effect e).
Proof. intros w. split; auto. Qed.

Lemma staysOff_recognition r :
  respects staysOff (modify (with_this (set_recognition r))).
Proof. intros w. split; auto. Qed.

Lemma staysOff_idleTimeout t :
  respects staysOff (modify (with_this (set_idleTimeout t))).
Proof. intros w. split; auto. Qed.

Lemma staysOff_lastCommand x :
  respects staysOff
    (modify (with_this (fun c => set_state (set_lastCommand x (state c)) c))).
Proof. intros w. split; auto. Qed.

Lemma staysOff_lastCommandTime t :
  respects staysOff
    (modify (with_this (fun c => set_state (set_lastCommandTime t (state c)) c))).
Proof. intros w. split; auto. Qed.

Lemma staysOff_updateUIState_false : respects staysOff (updateUIState false).
Proof. intros w. split; auto. Qed.

#[local] Hint Resolve staysOff_browser staysOff_effect staysOff_recognition
  staysOff_idleTimeout staysOff_lastCommand staysOff_lastCommandTime
  staysOff_updateUIState_false : respects_db.

Ltac off_go := respects_go staysOff_refl staysOff_trans.

Lemma staysOff_stopRecognition : respects staysOff stopRecognition.
Proof.
  unfold stopRecognition, clearIdleTimeout, clearTimeout, recognition_stop,
    console_log.
  off_go.
Qed.
#[local] Hint Resolve staysOff_stopRecognition : respects_db.

Lemma staysOff_startRecognition v : respects staysOff (startRecognition v).
Proof.
  intros w. destruct w as [[cfg st rec idle] hst [tk tm nt nh out]].
  unfold staysOff. start_go.
  destruct (supported hst); simpl.
  - destruct (throws hst tk); simpl.
    + destruct v; simpl; split; auto; discriminate.
    + destruct v; simpl; [destruct (answers hst (S tk)); simpl|];
        unfold stopRecognition, clearIdleTimeout, resetIdleTimeout, setTimeout,
          clearTimeout, recognition_stop, updateUIState, console_log, effect,
          bind, get, modify, ret; simpl;
        destruct idle as [[|n]|]; simpl; split; auto; discriminate.
  - destruct v; simpl; split; auto.
Qed.
#[local] Hint Resolve staysOff_startRecognition : respects_db.

Lemma staysOff_action v command c :
  lookupCommand command (commands v) = Some c ->
  respects staysOff (action c).
Proof.
  intros H. destruct v; simpl in H;
    repeat match type of H with
    | (if ?b then _ else _) = _ =>
        destruct b;
        [ injection H as <-; simpl;
          unfold smoothScroll, window_scrollTo, host_throws; off_go |]
    end; discriminate.
Qed.

Lemma staysOff_executeCommand v command :
  respects staysOff (executeCommand v command).
Proof.
  unfold executeCommand, console_log, console_error, showCommandFeedback,
    setTimeout, Date_now.
  apply (respects_tryCatch _ staysOff_trans); [| intros ?; off_go].
  apply (respects_bind _ staysOff_trans); [| intros ?; off_go].
  destruct (lookupCommand command (commands v)) eqn:H.
  - eapply staysOff_action; eassumption.
  - off_go.
Qed.
#[local] Hint Resolve staysOff_executeCommand : respects_db.

Lemma staysOff_handler v e : respects staysOff (handler v e).
Proof.
  destruct e; simpl.
  - unfold toggleRecognition. off_go.
  - unfold handleRecognitionResult, resetIdleTimeout, clearIdleTimeout,
      clearTimeout, setTimeout, processCommand, canExecuteCommand, Date_now,
      console_log.
    off_go.
  - unfold handleRecognitionError, console_error, console_log, alert. off_go.
  - unfold handleRecognitionEnd, recognition_start, host_throws, console_error.
    off_go.
  - unfold fireTimer, console_log. off_go.
  - unfold destroy. off_go.
  - off_go.
Qed.

Lemma staysOff_run v events w : staysOff w (run v w events).
Proof.
  revert w. induction events as [|e events IH]; intros w; simpl.
  - apply staysOff_refl.
  - eapply staysOff_trans; [apply (staysOff_handler v e w) | apply IH].
Qed.

(** X8.  In a browser without a recognition constructor the controller
    never listens, whatever events arrive: [isListening] stays false. *)
Theorem X8_unsupported_never_listens (v : Variant) (arg : ConfigArg)
    (h : Host) (events : list Event) :
  supported h = false ->
  isListening (state (this (run v (initialWorld arg h) events))) = false.
Proof.
  intros Hs. destruct (staysOff_run v events (initialWorld arg h)) as [_ H].
  apply H; [exact Hs | reflexivity].
Qed.

Lemma X8_unsupported_never_listens_witness :
  isListening
    (state (this (run VariantA (initialWorld noArg bareHost)
                    [Click; OnEnd; utterance "down"; Click]))) = false.
Proof.
  apply (X8_unsupported_never_listens VariantA noArg bareHost). reflexivity.
Defined.

(** ** What a result notification can do to the session *)

Lemma sameSession_refl w : sameSession w w.
Proof. split; reflexivity. Qed.

Lemma sameSession_trans a b c :
  sameSession a b -> sameSession b c -> sameSession a c.
Proof. unfold sameSession. intros [? ?] [? ?]. split; congruence. Qed.

Lemma sameSession_browser f : respects sameSession (modify (with_browser f)).
Proof. intros w. split; reflexivity. Qed.

Lemma sameSession_effect e : respects sameSession (effect e).
Proof. intros w. split; reflexivity. Qed.

Lemma sameSession_idleTimeout t :
  respects sameSession (modify (with_this (set_idleTimeout t))).
Proof. intros w. split; reflexivity. Qed.

Lemma sameSession_lastCommand x :
  respects sameSession
    (modify (with_this (fun c => set_state (set_lastCommand x (state c)) c))).
Proof. intros w. split; reflexivity. Qed.

Lemma sameSession_lastCommandTime t :
  respects sameSession
    (modify (with_this (fun c => set_state (set_lastCommandTime t (state c)) c))).
Proof. intros w. split; reflexivity. Qed.

#[local] Hint Resolve sameSession_browser sameSession_effect
  sameSession_idleTimeout sameSession_lastCommand sameSession_lastCommandTime
  : respects_db.

Ltac session_go := respects_go sameSession_refl sameSession_trans.

Lemma sameSession_action v command c :
  lookupCommand command (commands v) = Some c ->
  command <> "stop" ->
  respects sameSession (action c).
Proof.
  intros H Hne. destruct v; unfold commands in H;
    cbn [lookupCommand app] in H;
    repeat match type of H with
    | (if String.eqb ?name command then _ else _) = _ =>
        destruct (String.eqb_spec name command);
        [ injection H as <-; simpl; try congruence;
          unfold smoothScroll, window_scrollTo, host_throws; session_go |]
    end; discriminate.
Qed.

Lemma sameSession_executeCommand v command :
  command <> "stop" -> respects sameSession (executeCommand v command).
Proof.
  intros Hne.
  unfold executeCommand, console_log, console_error, showCommandFeedback,
    setTimeout, Date_now.
  apply (respects_tryCatch _ sameSession_trans); [| intros ?; session_go].
  apply (respects_bind _ sameSession_trans); [| intros ?; session_go].
  destruct (lookupCommand command (commands v)) eqn:H.
  - eapply sameSession_action; eassumption.
  - session_go.
Qed.

Lemma sameSession_processCommand v word :
  findMatchingCommand v word <> Some "stop" ->
  respects sameSession (processCommand v word).
Proof.
  intros Hne. unfold processCommand.
  destruct (findMatchingCommand v word) as [command|].
  - assert (Hc : command <> "stop") by congruence.
    pose proof (sameSession_executeCommand v command Hc).
    unfold canExecuteCommand, Date_now, console_log. session_go.
  - unfold console_log. session_go.
Qed.

Lemma sameSession_forEach v words :
  Forall (fun word => findMatchingCommand v word <> Some "stop") words ->
  respects sameSession (forEach (processCommand v) words).
Proof.
  induction 1 as [|word words Hw _ IH]; simpl.
  - session_go.
  - apply (respects_bind _ sameSession_trans).
    + apply sameSession_processCommand, Hw.
    + intros _. exact IH.
Qed.

Lemma variantB_has_no_stop word : findMatchingCommand VariantB word <> Some "stop".
Proof.
  intros H. apply find_some in H as [Hin _].
  vm_compute in Hin. intuition discriminate.
Qed.

(** X9.  A result notification none of whose tokens selects the command
    [stop] leaves [isListening] and [this.recognition] as they were; in
    variant B, which has no such command, every result notification
    does. *)
Theorem X9_results_keep_session (v : Variant) (event : ResultEvent)
    (w : World) :
  (Forall (fun word => findMatchingCommand v word <> Some "stop")
          (cleanTranscript v (transcript event)) ->
   sameSession w (world_after (handleRecognitionResult v event w))) /\
  sameSession w (world_after (handleRecognitionResult VariantB event w)).
Proof.
  assert (Hgen : forall u,
    Forall (fun word => findMatchingCommand u word <> Some "stop")
           (cleanTranscript u (transcript event)) ->
    respects sameSession (handleRecognitionResult u event)).
  { intros u Hf. pose proof (sameSession_forEach u _ Hf).
    unfold handleRecognitionResult, resetIdleTimeout, clearIdleTimeout,
      clearTimeout, setTimeout, console_log.
    session_go. }
  split.
  - intros Hf. apply (Hgen v Hf w).
  - apply (Hgen VariantB).
    apply Forall_forall. intros word _. apply variantB_has_no_stop.
Qed.

Lemma X9_results_keep_session_witness :
  let event := {| transcript := "scroll down please"; confidence := 1 |} in
  sameSession (listeningWorld VariantA)
    (world_after (handleRecognitionResult VariantA event
                    (listeningWorld VariantA))).
Proof.
  cbv zeta.
  destruct (X9_results_keep_session VariantA
              {| transcript := "scroll down please"; confidence := 1 |}
              (listeningWorld VariantA)) as [H _].
  apply H.
  change (cleanTranscript VariantA "scroll down please")
    with ["scroll"; "down"; "please"].
  repeat constructor; vm_compute; discriminate.
Defined.

Lemma lookup_stop :
  lookupCommand "stop" (commands VariantA)
  = Some {| description := "Stop voice control"; action := stopRecognition |}.
Proof. reflexivity. Qed.

(** X10.  In variant A a token that selects [stop] and passes the debounce
    gate ends the session from inside the result handler: afterwards the
    controller is not listening, holds no recognition object, remembers
    [stop] as the last command, and (in a world that keeps the timer
    invariant) has no idle timer pending although the handler had just
    set one. *)
Theorem X10_stop_command_stops (word : string) (w : World) :
  findMatchingCommand VariantA word = Some "stop" ->
  debounceGate "stop" (nowOf w) w ->
  let w' := world_after (processCommand VariantA word w) in
  isListening (state (this w')) = false /\
  recognition (this w') = None /\
  lastCommand (state (this w')) = "stop" /\
  (TimerInv w ->
   idleTimeout (this w') = None /\ forall id, ~ idlePending w' id).
Proof.
  intros Hm Hg. cbv zeta.
  rewrite (processCommand_matched _ _ _ _ Hm).
  apply gate_reflect in Hg. rewrite Hg.
  destruct (total_stopRecognition (ticked w)) as [[] Hr].
  pose proof (stopRecognition_state (ticked w)) as (Hl & Hn & _).
  cbv zeta in Hl, Hn.
  assert (Hinv : TimerInv w ->
                 idleTimeout (this (world_after (stopRecognition (ticked w))))
                 = None).
  { intros Hi. apply stopRecognition_timers. apply (keepsInv_tick w Hi). }
  unfold world_after in *.
  destruct (stopRecognition (ticked w)) as [w1 r] eqn:Hs.
  simpl in *. subst r.
  destruct (executeCommand_success VariantA "stop" _ (ticked w) w1 lookup_stop Hs)
    as (w2 & He & Hst & _ & Hrec & Hidle).
  rewrite He. simpl. rewrite Hst, Hrec, Hidle. simpl.
  split; [exact Hl|]. split; [exact Hn|]. split; [reflexivity|].
  intros Hi. split; [apply Hinv, Hi|].
  intros id Hp.
  assert (Hw2 : TimerInv w2).
  { pose proof (keepsInv_executeCommand VariantA "stop" (ticked w)
                  (keepsInv_tick w Hi)) as H2.
    unfold world_after in H2. rewrite He in H2. exact H2. }
  apply (inv_idle _ Hw2) in Hp. rewrite Hidle, (Hinv Hi) in Hp. discriminate.
Qed.

Lemma X10_stop_command_stops_witness :
  isListening
    (state (this (world_after
       (processCommand VariantA "stop" (listeningWorld VariantA))))) = false.
Proof.
  apply (X10_stop_command_stops "stop" (listeningWorld VariantA)).
  - reflexivity.
  - left. discriminate.
Defined.

(** X11.  An error notification whose kind is none of [not-allowed],
    [permission-denied] and [audio-capture] never stops anything, in
    either variant: the controller and the pending timers are as before
    and the handler returns.  This covers an event without an [error]
    property and one with an empty one, which both read as
    [Unknown error]. *)
Theorem X11_other_errors_change_nothing (v : Variant) (error : option string)
    (w : World) :
  errorMessageOf None = "Unknown error" /\
  errorMessageOf (Some EmptyString) = "Unknown error" /\
  (errorMessageOf error <> "not-allowed" ->
   errorMessageOf error <> "permission-denied" ->
   errorMessageOf error <> "audio-capture" ->
   let w' := world_after (handleRecognitionError v error w) in
   returned (handleRecognitionError v error w) /\
   this w' = this w /\
   timers (browser w') = timers (browser w) /\
   In (ConsoleError (MsgRecognitionError (errorMessageOf error)))
      (output (browser w'))).
Proof.
  split; [reflexivity|]. split; [reflexivity|].
  intros H1 H2 H3. split; [apply total_handleRecognitionError|].
  apply String.eqb_neq in H1, H2, H3.
  unfold handleRecognitionError. rewrite H1, H2, H3. cbv zeta.
  destruct v; simpl;
    repeat match goal with
    | |- context [if ?b then _ else _] => destruct b
    end; simpl;
    (split; [reflexivity|]); (split; [reflexivity|]);
    rewrite !in_app_iff; simpl; tauto.
Qed.

Lemma X11_other_errors_change_nothing_witness :
  this (world_after (handleRecognitionError VariantA None
                       (listeningWorld VariantA)))
  = this (listeningWorld VariantA).
Proof.
  destruct (X11_other_errors_change_nothing VariantA None
              (listeningWorld VariantA)) as (_ & _ & H).
  apply H; vm_compute; discriminate.
Defined.

Lemma processCommand_gate v word c w :
  findMatchingCommand v word = Some c ->
  (debounceGate c (nowOf w) w ->
   processCommand v word w = executeCommand v c (ticked w)) /\
  (~ debounceGate c (nowOf w) w ->
   processCommand v word w
   = (logged (ConsoleLog (MsgDebounced c)) (ticked w), inr tt)).
Proof.
  intros Hm. rewrite (processCommand_matched _ _ _ _ Hm).
  pose proof (gate_reflect c w) as Hg. split.
  - intros H. apply Hg in H. rewrite H. reflexivity.
  - intros H. destruct (_ || _); [|reflexivity].
    destruct H. apply Hg. reflexivity.
Qed.

(** X12.  After a command has executed, the same command is suppressed in
    every later world with the same controller whose clock is at most the
    debounce delay past the time recorded at the execution, and it
    executes again once the clock is further than that. *)
Theorem X12_repeat_within_delay (v : Variant) (word c : string)
    (cmd : Command) (w w1 : World) :
  findMatchingCommand v word = Some c ->
  lookupCommand c (commands v) = Some cmd ->
  debounceGate c (nowOf w) w ->
  action cmd (ticked w) = (w1, inr tt) ->
  let w2 := world_after (processCommand v word w) in
  lastCommand (state (this w2)) = c /\
  lastCommandTime (state (this w2)) = nowOf w1 /\
  forall w3,
    this w3 = this w2 ->
    (nowOf w3 - nowOf w1 <= debounceDelay (config (this w)) ->
     processCommand v word w3
     = (logged (ConsoleLog (MsgDebounced c)) (ticked w3), inr tt)) /\
    (nowOf w3 - nowOf w1 > debounceDelay (config (this w)) ->
     processCommand v word w3 = executeCommand v c (ticked w3)).
Proof.
  intros Hm Hl Hg Ha. cbv zeta.
  rewrite (processCommand_matched _ _ _ _ Hm).
  apply gate_reflect in Hg. rewrite Hg.
  destruct (executeCommand_success v c cmd (ticked w) w1 Hl Ha)
    as (w2 & He & Hst & Hcfg & _).
  rewrite He. unfold world_after. simpl. rewrite Hst. simpl.
  split; [reflexivity|]. split; [reflexivity|].
  assert (Hc : config (this w2) = config (this w)).
  { rewrite Hcfg.
    pose proof (sameConfig_action v c cmd Hl (ticked w)) as H.
    unfold sameConfig, world_after in H. rewrite Ha in H. exact H. }
  intros w3 H3.
  destruct (processCommand_gate v word c w3 Hm) as (Hopen & Hshut).
  unfold debounceGate in *. rewrite H3, Hst, Hc in *. simpl in *.
  split.
  - intros Hle. apply Hshut. intros [Hne | Hgt]; [congruence | lia].
  - intros Hgt. apply Hopen. right. exact Hgt.
Qed.

Lemma X12_repeat_within_delay_witness :
  let w := initialWorld noArg quickHost in
  lastCommand (state (this (world_after (processCommand VariantB "down" w))))
  = "down".
Proof.
  cbv zeta.
  assert (Hg : debounceGate "down" (nowOf (initialWorld noArg quickHost))
                 (initialWorld noArg quickHost)) by (left; discriminate).
  destruct (X12_repeat_within_delay VariantB "down" "down"
              {| description := "Scroll down";
                 action :=
                   w <- get ;;
                   smoothScroll VariantB
                     (scrollY (pageOf w) + scrollAmount (config (this w)))%Q |}
              (initialWorld noArg quickHost)
              (logged (ScrollTo (Qmax 0 (300 + 100)))
                 (ticked (ticked (initialWorld noArg quickHost))))
              eq_refl eq_refl Hg eq_refl) as (H & _).
  exact H.
Defined.

(** ** The scroll commands *)

Lemma smoothScroll_returns v p w w' :
  smoothScroll v p w = (w', inr tt) ->
  w' = logged (ScrollTo
                 (match v with
                  | VariantA => Qmax 0 (Qmin p (scrollHeight (pageOf w)))
                  | VariantB => Qmax 0 p
                  end)) (ticked w).
Proof.
  rewrite smoothScroll_run, window_scrollTo_run.
  destruct (nextThrows w); intros H; inversion H. reflexivity.
Qed.

Lemma clamped_in_range v p h :
  (0 <= h)%Q ->
  let top := match v with
             | VariantA => Qmax 0 (Qmin p h)
             | VariantB => Qmax 0 p
             end in
  (0 <= top)%Q /\ (v = VariantA -> (top <= h)%Q).
Proof.
  intros Hh. destruct v; simpl.
  - split; [apply Q.le_max_l|]. intros _.
    apply Q.max_lub; [exact Hh | apply Q.le_min_r].
  - split; [apply Q.le_max_l | discriminate].
Qed.

(** X13.  Each of the scroll commands (every command but [stop]), when its
    action returns, has passed exactly one position to [window.scrollTo]
    and done nothing else; that position is never negative, and in
    variant A it never exceeds [document.body.scrollHeight]. *)
Theorem X13_scroll_commands_in_range (v : Variant) (command : string)
    (c : Command) (w w' : World) :
  lookupCommand command (commands v) = Some c ->
  command <> "stop" ->
  (0 <= scrollHeight (pageOf w))%Q ->
  action c w = (w', inr tt) ->
  exists top : Q,
    w' = logged (ScrollTo top) (ticked w) /\
    (0 <= top)%Q /\
    (v = VariantA -> (top <= scrollHeight (pageOf w))%Q).
Proof.
  intros H Hne Hh Ha.
  assert (Hgen : forall p, smoothScroll v p w = (w', inr tt) ->
            exists top : Q,
              w' = logged (ScrollTo top) (ticked w) /\
              (0 <= top)%Q /\
              (v = VariantA -> (top <= scrollHeight (pageOf w))%Q)).
  { intros p Hp. apply smoothScroll_returns in Hp.
    eexists. split; [exact Hp|]. apply clamped_in_range, Hh. }
  destruct v; unfold commands in H; cbn [lookupCommand app] in H;
    repeat match type of H with
    | (if String.eqb ?name command then _ else _) = _ =>
        destruct (String.eqb_spec name command);
        [ injection H as <-; try congruence; simpl in Ha;
          try (rewrite bind_run in Ha; simpl in Ha);
          eapply Hgen; exact Ha |]
    end; discriminate.
Qed.

Lemma X13_scroll_commands_in_range_witness :
  exists top : Q,
    logged (ScrollTo (Qmax 0 (Qmin (300 + 600 / 2) 2000))) (ticked calmWorld)
    = logged (ScrollTo top) (ticked calmWorld) /\
    (0 <= top)%Q /\
    (VariantA = VariantA -> (top <= scrollHeight (pageOf calmWorld))%Q).
Proof.
  apply (X13_scroll_commands_in_range VariantA "jump"
           {| description := "Scroll down half a page";
              action :=
                w <- get ;;
                smoothScroll VariantA
                  (scrollY (pageOf w) + innerHeight (pageOf w) / 2)%Q |}
           calmWorld).
  - reflexivity.
  - discriminate.
  - vm_compute. discriminate.
  - reflexivity.
Defined.

(** X14.  When [window.scrollTo] does not throw, the command [top]
    scrolls to position 0 and the command [bottom] to
    [document.body.scrollHeight], in both variants. *)
Theorem X14_top_and_bottom (v : Variant) (w : World) :
  (0 <= scrollHeight (pageOf w))%Q ->
  nextThrows w = false ->
  (exists c top,
      lookupCommand "top" (commands v) = Some c /\
      action c w = (logged (ScrollTo top) (ticked w), inr tt) /\
      (top == 0)%Q) /\
  (exists c top,
      lookupCommand "bottom" (commands v) = Some c /\
      action c w = (logged (ScrollTo top) (ticked w), inr tt) /\
      (top == scrollHeight (pageOf w))%Q).
Proof.
  intros Hh Ht. split.
  - eexists. eexists. split; [destruct v; reflexivity|].
    split.
    + simpl. rewrite smoothScroll_run, window_scrollTo_run, Ht. reflexivity.
    + destruct v.
      * apply Q.max_l, Q.le_min_l.
      * apply Q.max_l, Qle_refl.
  - eexists. eexists. split; [destruct v; reflexivity|].
    split.
    + simpl. rewrite bind_run. simpl.
      rewrite smoothScroll_run, window_scrollTo_run, Ht. reflexivity.
    + destruct v.
      * rewrite Q.min_id. apply Q.max_r, Hh.
      * apply Q.max_r, Hh.
Qed.

Lemma X14_top_and_bottom_witness :
  exists c top,
    lookupCommand "bottom" (commands VariantB) = Some c /\
    action c calmWorld = (logged (ScrollTo top) (ticked calmWorld), inr tt) /\
    (top == 2000)%Q.
Proof.
  destruct (X14_top_and_bottom VariantB calmWorld) as (_ & H).
  - vm_compute. discriminate.
  - reflexivity.
  - exact H.
Defined.

(** X15.  [stopRecognition] cancels no timer but the one
    [this.idleTimeout] names: every other pending timer, the feedback
    timers of variant A among them, is still pending afterwards. *)
Theorem X15_stop_keeps_other_timers (w : World) (id : nat)
    (cb : TimerCallback) :
  timers (browser w) !! id = Some cb ->
  idleTimeout (this w) <> Some id ->
  timers (browser (world_after (stopRecognition w))) !! id = Some cb.
Proof.
  destruct w as [[cfg st rec idle] hst [tk tm nt nh out]]. simpl.
  intros Hp Hne.
  destruct rec as [h|]; destruct idle as [[|n]|]; simpl; try exact Hp;
    (rewrite lookup_delete_ne by congruence; exact Hp).
Qed.

Lemma X15_stop_keeps_other_timers_witness :
  let w := run VariantA calmWorld [Click; utterance "down"] in
  timers (browser (world_after (stopRecognition w))) !! 3%nat
  = Some FeedbackCallback.
Proof.
  cbv zeta.
  apply (X15_stop_keeps_other_timers
           (run VariantA calmWorld [Click; utterance "down"]) 3
           FeedbackCallback).
  - reflexivity.
  - vm_compute. discriminate.
Defined.

(** X16.  The command table is consistent with the matcher: every command
    name, given as a token, selects itself (no name is shadowed by an
    earlier one, not even [stop] by [top]), and every name the matcher
    returns has an entry with an action, so [executeCommand] never looks
    up a missing command. *)
Theorem X16_command_table (v : Variant) :
  (forall c, In c (commandNames v) -> findMatchingCommand v c = Some c) /\
  (forall word c,
      findMatchingCommand v word = Some c ->
      exists cmd, lookupCommand c (commands v) = Some cmd).
Proof.
  split.
  - intros c Hin. destruct v; vm_compute in Hin;
      intuition subst; vm_compute; reflexivity.
  - intros word c H. apply find_some in H as [Hin _].
    destruct v; vm_compute in Hin; intuition subst; eexists; reflexivity.
Qed.

Lemma X16_command_table_witness :
  findMatchingCommand VariantA "stop" = Some "stop" /\
  exists cmd, lookupCommand "down" (commands VariantB) = Some cmd.
Proof.
  destruct (X16_command_table VariantA) as (Hself & _).
  destruct (X16_command_table VariantB) as (_ & Hentry).
  split.
  - apply Hself. vm_compute. tauto.
  - apply (Hentry "scroll-down"). reflexivity.
Defined.

(** ** More on cleaning and matching *)

Lemma char_lower_idem c : Char.toLowerCase (Char.toLowerCase c) = Char.toLowerCase c.
Proof. destruct c as [[] [] [] [] [] [] [] []]; reflexivity. Qed.

Lemma char_lower_space c :
  Char.isWhiteSpace (Char.toLowerCase c) = Char.isWhiteSpace c.
Proof. destruct c as [[] [] [] [] [] [] [] []]; reflexivity. Qed.

Lemma lower_idem s : Str.toLowerCase (Str.toLowerCase s) = Str.toLowerCase s.
Proof.
  induction s as [|c s IH]; [reflexivity|].
  unfold Str.toLowerCase in *. simpl. rewrite char_lower_idem, IH. reflexivity.
Qed.

Lemma lower_snoc s c :
  Str.toLowerCase (snoc s c) = snoc (Str.toLowerCase s) (Char.toLowerCase c).
Proof.
  unfold snoc, Str.toLowerCase.
  induction s as [|a s IH]; [reflexivity|].
  simpl. rewrite !RegExpFacts.append_cons. simpl. rewrite IH. reflexivity.
Qed.

Lemma words_from_snoc s c :
  Char.isWhiteSpace c = true -> Str.words_from (snoc s c) = Str.words_from s.
Proof.
  intros Hc. unfold snoc. induction s as [|a s IH].
  - simpl. rewrite Hc. reflexivity.
  - destruct s as [|b s'].
    + change (String a "" +:+ String c "") with (String a (String c "")).
      rewrite StrFacts.words_from_cons2, Hc. simpl. rewrite Hc.
      destruct (Char.isWhiteSpace a); reflexivity.
    + change (String a (String b s') +:+ String c "")
        with (String a (String b (s' +:+ String c ""))).
      rewrite !StrFacts.words_from_cons2.
      change (String b (s' +:+ String c "")) with (String b s' +:+ String c "").
      rewrite IH. reflexivity.
Qed.

Lemma no_words_trim_empty s :
  Str.isEmpty (Str.trim s) = true <-> Str.words_from s = [].
Proof.
  split; [apply StrFacts.trim_empty_no_words|].
  intros H. rewrite <- StrFacts.words_from_trim in H.
  pose proof (StrFacts.trim_head s) as Hh.
  destruct (Str.trim s) as [|c r]; [reflexivity|].
  simpl in Hh. destruct (StrFacts.words_from_head c r Hh) as (tok & rest & Hw).
  rewrite Hw in H. discriminate.
Qed.

(** The cleaning read off the words of the lower-cased transcript. *)
Lemma cleanTranscript_by_words v t :
  cleanTranscript v t =
  let words := Str.words_from (Str.toLowerCase t) in
  let tokens := words ++ (if Str.isEmpty (Str.trim (Str.toLowerCase t))
                          then [EmptyString] else []) in
  match v with
  | VariantA =>
      List.filter
        (fun word => negb (Str.isEmpty word) && negb (isNoise v word)) tokens
  | VariantB => List.filter (fun word => negb (isNoise v word)) tokens
  end.
Proof. unfold cleanTranscript. rewrite StrFacts.split_trim. reflexivity. Qed.

Lemma same_words_same_cleaning v t1 t2 :
  Str.words_from (Str.toLowerCase t1) = Str.words_from (Str.toLowerCase t2) ->
  cleanTranscript v t1 = cleanTranscript v t2.
Proof.
  intros H. rewrite !cleanTranscript_by_words. cbv zeta. rewrite H.
  assert (He : Str.isEmpty (Str.trim (Str.toLowerCase t1))
               = Str.isEmpty (Str.trim (Str.toLowerCase t2))).
  { apply eq_true_iff_eq. rewrite !no_words_trim_empty, H. reflexivity. }
  rewrite He. reflexivity.
Qed.

(** X17.  [cleanTranscript] depends only on the words of the transcript in
    lower case: two transcripts with the same such words are cleaned
    alike.  So the case of the letters does not matter, and neither does
    white space added in front of the transcript or behind it. *)
Theorem X17_cleaning_ignores_case_and_padding (v : Variant) (t : string) :
  (forall t',
      Str.words_from (Str.toLowerCase t') = Str.words_from (Str.toLowerCase t) ->
      cleanTranscript v t' = cleanTranscript v t) /\
  cleanTranscript v (Str.toLowerCase t) = cleanTranscript v t /\
  (forall c,
      Char.isWhiteSpace c = true ->
      cleanTranscript v (String c t) = cleanTranscript v t /\
      cleanTranscript v (snoc t c) = cleanTranscript v t).
Proof.
  split; [intros t'; apply same_words_same_cleaning|].
  split.
  - apply same_words_same_cleaning. rewrite lower_idem. reflexivity.
  - intros c Hc. split; apply same_words_same_cleaning.
    + change (Str.toLowerCase (String c t))
        with (String (Char.toLowerCase c) (Str.toLowerCase t)).
      apply StrFacts.words_from_space. rewrite char_lower_space. exact Hc.
    + rewrite lower_snoc. apply words_from_snoc.
      rewrite char_lower_space. exact Hc.
Qed.

Lemma X17_cleaning_ignores_case_and_padding_witness :
  cleanTranscript VariantA (String " " "Scroll DOWN")
  = cleanTranscript VariantA "Scroll DOWN" /\
  cleanTranscript VariantA "scroll   down " = cleanTranscript VariantA "Scroll DOWN".
Proof.
  destruct (X17_cleaning_ignores_case_and_padding VariantA "Scroll DOWN")
    as (Hsame & _ & Hpad).
  split.
  - apply (Hpad " "%char). reflexivity.
  - apply Hsame. reflexivity.
Defined.

Lemma split_from_fixed f b s :
  Str.map f s = s ->
  Forall (fun tok => Str.map f tok = tok) (Str.split_from b s).
Proof.
  revert b. induction s as [|c s IH]; intros b Hs.
  - repeat constructor.
  - simpl in Hs. injection Hs as Hc Hs'. specialize (IH false Hs') as IHf.
    pose proof (IH true Hs') as IHt.
    simpl. destruct (Char.isWhiteSpace c).
    + destruct b; [exact IHt|]. constructor; [reflexivity | exact IHt].
    + destruct (Str.split_from false s) as [|tok rest].
      * constructor; [|constructor]. simpl. rewrite Hc. reflexivity.
      * inversion IHf; subst. constructor; [|assumption].
        simpl. rewrite Hc. congruence.
Qed.



(** ** Stopping and destroying on a page that lacks an element *)

(** X2.  On a page where [validateDOMElements] holds, and more generally
    where the elements [updateUIState] reads exist, [stopRecognition]
    does what it does in the model without elements, and called again on
    the controller it has just stopped it calls neither
    [recognition.stop()] nor [clearTimeout] and only writes its console
    line.  Where the [.mic] icon is missing, or the button in variant A,
    it throws a [TypeError] out of [updateUIState]: the world is then
    that of a completed stop without its console line, so recognition has
    been stopped, the idle timer cleared and [isListening] set to
    false. *)
Theorem X2_stop_and_elements (v : Variant) (els : Dom.Elements) (w : World) :
  (Dom.validateDOMElements v els = true ->
   Dom.micIcon els = true /\ Dom.micBtn els = true) /\
  (Dom.micIcon els = true ->
   (v = VariantA -> Dom.micBtn els = true) ->
   Dom.stopRecognition v els w = stopRecognition w /\
   let w1 := world_after (Dom.stopRecognition v els w) in
   Dom.stopRecognition v els w1
   = (logged (ConsoleLog MsgStopped) w1, inr tt)) /\
  (Dom.micIcon els = false \/ (v = VariantA /\ Dom.micBtn els = false) ->
   exists w',
     Dom.stopRecognition v els w = (w', inl TypeError) /\
     world_after (stopRecognition w) = logged (ConsoleLog MsgStopped) w' /\
     recognition (this w') = None /\
     isListening (state (this w')) = false).
Proof.
  split; [|split].
  - destruct v, els as [[] [] []]; simpl; intros H;
      try discriminate H; split; reflexivity.
  - intros Hi Hb. destruct els as [b i t]. simpl in Hi. subst i.
    assert (v = VariantB \/ b = true) as Hv
        by (destruct v; [right; apply Hb; reflexivity | left; reflexivity]).
    destruct w as [[cfg st [h|] [[|n]|]] hst br];
      destruct Hv as [-> | ->]; try destruct v; destruct t;
      split; reflexivity.
  - intros H. destruct els as [b i t]. simpl in H.
    destruct w as [[cfg st [h|] [[|n]|]] hst br];
      (destruct H as [-> | [-> ->]];
       [destruct v, b, t | destruct i, t]);
      eexists; (split; [reflexivity|]); repeat split.
Qed.

Lemma X2_stop_and_elements_witness :
  (Dom.stopRecognition VariantA allElements (listeningWorld VariantA)
   = stopRecognition (listeningWorld VariantA)) /\
  (exists w',
      Dom.stopRecognition VariantB noIcon (listeningWorld VariantB)
      = (w', inl TypeError) /\
      world_after (stopRecognition (listeningWorld VariantB))
      = logged (ConsoleLog MsgStopped) w' /\
      recognition (this w') = None /\
      isListening (state (this w')) = false).
Proof.
  split.
  - destruct (X2_stop_and_elements VariantA allElements
                (listeningWorld VariantA)) as (_ & H & _).
    apply H; reflexivity.
  - destruct (X2_stop_and_elements VariantB noIcon
                (listeningWorld VariantB)) as (_ & _ & H).
    apply H. left. reflexivity.
Defined.

(** X20.  Where the icon and the button exist, [destroy] does what
    [stopRecognition] does and nothing more: the call of
    [removeEventListener] removes no listener and the assignment of null
    to [this.recognition] repeats what [stopRecognition] has done.  In
    variant B on a page without the button, [destroy] throws a
    [TypeError] at the unguarded [micBtn.removeEventListener], after
    [stopRecognition] has run to its end.  Where [stopRecognition] itself
    throws, [destroy] throws there and goes no further. *)
Theorem X20_destroy_and_elements (v : Variant) (els : Dom.Elements)
    (w : World) :
  (Dom.micIcon els = true -> Dom.micBtn els = true ->
   Dom.destroy v els w = stopRecognition w) /\
  (v = VariantB -> Dom.micIcon els = true -> Dom.micBtn els = false ->
   Dom.destroy v els w = (world_after (stopRecognition w), inl TypeError)) /\
  (Dom.micIcon els = false \/ (v = VariantA /\ Dom.micBtn els = false) ->
   Dom.destroy v els w = Dom.stopRecognition v els w).
Proof.
  destruct els as [b i t]. simpl.
  split; [|split].
  - intros -> ->.
    destruct w as [[cfg st [h|] [[|n]|]] hst br]; destruct v, t; reflexivity.
  - intros -> -> ->.
    destruct w as [[cfg st [h|] [[|n]|]] hst br]; reflexivity.
  - intros H.
    destruct w as [[cfg st [h|] [[|n]|]] hst br];
      (destruct H as [-> | [-> ->]];
       [destruct v, b, t | destruct i, t]); reflexivity.
Qed.

Lemma X20_destroy_and_elements_witness :
  Dom.destroy VariantA allElements (listeningWorld VariantA)
  = stopRecognition (listeningWorld VariantA) /\
  Dom.destroy VariantB noButton (listeningWorld VariantB)
  = (world_after (stopRecognition (listeningWorld VariantB)), inl TypeError).
Proof.
  split.
  - destruct (X20_destroy_and_elements VariantA allElements
                (listeningWorld VariantA)) as (H & _).
    apply H; reflexivity.
  - destruct (X20_destroy_and_elements VariantB noButton
                (listeningWorld VariantB)) as (_ & H & _).
    apply H; reflexivity.
Defined.

(** ** Every result postpones the idle stop *)

Lemma keepsPending_refl w : keepsPending w w.
Proof. split; [reflexivity|]. split; [lia | auto]. Qed.

Lemma keepsPending_trans a b c :
  keepsPending a b -> keepsPending b c -> keepsPending a c.
Proof.
  intros (Hi1 & Hn1 & Ht1) (Hi2 & Hn2 & Ht2).
  split; [congruence|]. split; [lia|].
  intros id Hid. rewrite Ht2 by lia. apply Ht1, Hid.
Qed.

Lemma keepsPending_tick : respects keepsPending (modify (with_browser next_tick)).
Proof. intros w. split; [reflexivity|]. split; simpl; [lia | auto]. Qed.

Lemma keepsPending_effect e : respects keepsPending (effect e).
Proof. intros w. split; [reflexivity|]. split; simpl; [lia | auto]. Qed.

Lemma keepsPending_add cb :
  respects keepsPending (modify (with_browser (add_timer cb))).
Proof.
  intros w. split; [reflexivity|]. split; simpl; [lia|].
  intros id Hid. apply lookup_insert_ne. lia.
Qed.

Lemma keepsPending_lastCommand x :
  respects keepsPending
    (modify (with_this (fun c => set_state (set_lastCommand x (state c)) c))).
Proof. intros w. split; [reflexivity|]. split; simpl; [lia | auto]. Qed.

Lemma keepsPending_lastCommandTime t :
  respects keepsPending
    (modify (with_this (fun c => set_state (set_lastCommandTime t (state c)) c))).
Proof. intros w. split; [reflexivity|]. split; simpl; [lia | auto]. Qed.

#[local] Hint Resolve keepsPending_tick keepsPending_effect keepsPending_add
  keepsPending_lastCommand keepsPending_lastCommandTime : respects_db.

Ltac pending_go := respects_go keepsPending_refl keepsPending_trans.

Lemma keepsPending_action v command c :
  lookupCommand command (commands v) = Some c ->
  command <> "stop" ->
  respects keepsPending (action c).
Proof.
  intros H Hne. destruct v; unfold commands in H;
    cbn [lookupCommand app] in H;
    repeat match type of H with
    | (if String.eqb ?name command then _ else _) = _ =>
        destruct (String.eqb_spec name command);
        [ injection H as <-; simpl; try congruence;
          unfold smoothScroll, window_scrollTo, host_throws; pending_go |]
    end; discriminate.
Qed.

Lemma keepsPending_processCommand v word :
  findMatchingCommand v word <> Some "stop" ->
  respects keepsPending (processCommand v word).
Proof.
  intros Hne. unfold processCommand.
  destruct (findMatchingCommand v word) as [command|].
  - assert (Hc : command <> "stop") by congruence.
    assert (He : respects keepsPending (executeCommand v command)).
    { unfold executeCommand, console_log, console_error, showCommandFeedback,
        setTimeout, Date_now.
      apply (respects_tryCatch _ keepsPending_trans); [| intros ?; pending_go].
      apply (respects_bind _ keepsPending_trans); [| intros ?; pending_go].
      destruct (lookupCommand command (commands v)) eqn:H.
      - eapply keepsPending_action; eassumption.
      - pending_go. }
    unfold canExecuteCommand, Date_now, console_log. pending_go.
  - unfold console_log. pending_go.
Qed.

Lemma keepsPending_forEach v words :
  Forall (fun word => findMatchingCommand v word <> Some "stop") words ->
  respects keepsPending (forEach (processCommand v) words).
Proof.
  induction 1 as [|word words Hw _ IH]; simpl.
  - pending_go.
  - apply (respects_bind _ keepsPending_trans).
    + apply keepsPending_processCommand, Hw.
    + intros _. exact IH.
Qed.

Lemma resetIdleTimeout_arms w :
  let w1 := world_after (resetIdleTimeout w) in
  idleTimeout (this w1) = Some (nextTimer (browser w)) /\
  idlePending w1 (nextTimer (browser w)) /\
  nextTimer (browser w1) = S (nextTimer (browser w)) /\
  In (SetTimeout (nextTimer (browser w)) IdleCallback
        (idleDuration (config (this w)))) (output (browser w1)).
Proof.
  destruct w as [[cfg st rec idle] hst [tk tm nt nh out]].
  unfold idlePending.
  destruct idle as [[|n]|]; simpl; rewrite lookup_insert_eq;
    (repeat split; try reflexivity); rewrite !in_app_iff; simpl; tauto.
Qed.

Lemma outputGrows_refl w : outputGrows w w.
Proof. exists []. rewrite app_nil_r. reflexivity. Qed.

Lemma outputGrows_trans a b c :
  outputGrows a b -> outputGrows b c -> outputGrows a c.
Proof.
  intros [e1 H1] [e2 H2]. exists (e1 ++ e2).
  rewrite H2, H1, app_assoc. reflexivity.
Qed.

Lemma outputGrows_this f : respects outputGrows (modify (with_this f)).
Proof. intros w. exists []. simpl. rewrite app_nil_r. reflexivity. Qed.

Lemma outputGrows_tick : respects outputGrows (modify (with_browser next_tick)).
Proof. intros w. exists []. simpl. rewrite app_nil_r. reflexivity. Qed.

Lemma outputGrows_add cb :
  respects outputGrows (modify (with_browser (add_timer cb))).
Proof. intros w. exists []. simpl. rewrite app_nil_r. reflexivity. Qed.

Lemma outputGrows_drop id :
  respects outputGrows (modify (with_browser (drop_timer id))).
Proof. intros w. exists []. simpl. rewrite app_nil_r. reflexivity. Qed.

Lemma outputGrows_effect e : respects outputGrows (effect e).
Proof. intros w. exists [e]. reflexivity. Qed.

#[local] Hint Resolve outputGrows_this outputGrows_tick outputGrows_add
  outputGrows_drop outputGrows_effect : respects_db.

Ltac grows_go := respects_go outputGrows_refl outputGrows_trans.

Lemma outputGrows_stopRecognition : respects outputGrows stopRecognition.
Proof.
  unfold stopRecognition, clearIdleTimeout, clearTimeout, recognition_stop,
    updateUIState, console_log.
  grows_go.
Qed.
#[local] Hint Resolve outputGrows_stopRecognition : respects_db.

Lemma outputGrows_action v command c :
  lookupCommand command (commands v) = Some c ->
  respects outputGrows (action c).
Proof.
  intros H. destruct v; simpl in H;
    repeat match type of H with
    | (if ?b then _ else _) = _ =>
        destruct b;
        [ injection H as <-; simpl;
          unfold smoothScroll, window_scrollTo, host_throws; grows_go |]
    end; discriminate.
Qed.

Lemma outputGrows_executeCommand v command :
  respects outputGrows (executeCommand v command).
Proof.
  unfold executeCommand, console_log, console_error, showCommandFeedback,
    setTimeout, Date_now.
  apply (respects_tryCatch _ outputGrows_trans); [| intros ?; grows_go].
  apply (respects_bind _ outputGrows_trans); [| intros ?; grows_go].
  destruct (lookupCommand command (commands v)) eqn:H.
  - eapply outputGrows_action; eassumption.
  - grows_go.
Qed.
#[local] Hint Resolve outputGrows_executeCommand : respects_db.

Lemma outputGrows_processCommand v word :
  respects outputGrows (processCommand v word).
Proof.
  unfold processCommand, canExecuteCommand, Date_now, console_log. grows_go.
Qed.
#[local] Hint Resolve outputGrows_processCommand : respects_db.

(** X21.  A result notification none of whose tokens selects [stop]
    (every result notification in variant B) ends with the idle timer it
    has set at its start still pending and named by [this.idleTimeout],
    set for the configured idle duration: the commands it executes cancel
    no timer. *)
Theorem X21_result_rearms_idle_timer (v : Variant) (event : ResultEvent)
    (w : World) :
  Forall (fun word => findMatchingCommand v word <> Some "stop")
         (cleanTranscript v (transcript event)) ->
  let w' := world_after (handleRecognitionResult v event w) in
  idleTimeout (this w') = Some (nextTimer (browser w)) /\
  idlePending w' (nextTimer (browser w)) /\
  In (SetTimeout (nextTimer (browser w)) IdleCallback
        (idleDuration (config (this w)))) (output (browser w')).
Proof.
  intros Hf. cbv zeta. unfold handleRecognitionResult, world_after.
  rewrite bind_run.
  destruct (total_resetIdleTimeout w) as [[] Hr].
  pose proof (resetIdleTimeout_arms w) as (Hi & Hp & Hn & Hout).
  cbv zeta in Hi, Hp, Hn, Hout. unfold world_after in *.
  destruct (resetIdleTimeout w) as [w1 r]. simpl in *. subst r.
  set (rest := (_ ;; forEach _ _)).
  assert (Hk : respects keepsPending rest).
  { subst rest. pose proof (keepsPending_forEach v _ Hf).
    unfold console_log. pending_go. }
  assert (Hg : respects outputGrows rest).
  { subst rest. unfold console_log. grows_go. }
  destruct (Hk w1) as (Hi' & _ & Ht'). destruct (Hg w1) as [es Hes].
  unfold world_after in *.
  split; [congruence|]. split.
  - unfold idlePending in *. rewrite Ht' by lia. exact Hp.
  - rewrite Hes. apply in_or_app. left. exact Hout.
Qed.

Lemma X21_result_rearms_idle_timer_witness :
  let w' := step VariantB (listeningWorld VariantB) (utterance "up") in
  idleTimeout (this w') = Some 2%nat /\ idlePending w' 2.
Proof.
  cbv zeta.
  destruct (X21_result_rearms_idle_timer VariantB
              {| transcript := "up"; confidence := 1 |}
              (listeningWorld VariantB)) as (Hi & Hp & _).
  - change (cleanTranscript VariantB "up") with ["up"].
    repeat constructor. vm_compute. discriminate.
  - split; [exact Hi | exact Hp].
Defined.
